(** * explore-with-gdb: call-graph capture scripts

    A shallow embedding of the gdb Python scripts [python/view_call_graph.py],
    [view_call_graph_interactive.py] and [print_stack.py]:

    - [tidy], the frame-name normaliser shared verbatim by the three scripts;
    - [StackTraceBreakpoint.stop], which walks the frame chain and records the
      tidied stack and the set of function names;
    - [StackTraceBreakpoint.create_and_view_graph], which numbers the names and
      builds the edge set handed to graphviz, without and with a selected stack.

    Python [str] is [string] (the operations of [tidy] work character by
    character and every pattern is ASCII), Python [set] is [gset], Python
    lists are [list].  Exceptions are values of [result]. *)

From Stdlib Require Import Ascii.
From stdpp Require Import gmap strings list pretty.

Set Warnings "-clear-no-such-hyp".

(** ** Python string primitives used by [tidy] *)

Module PyStr.

(** [s.replace(old, "")] for a non-empty [old]: scan left to right, and at each
    position where [old] starts drop [len(old)] characters; occurrences are
    found in what is left of the ORIGINAL string, never in the output.  [skip]
    counts the characters of the current occurrence still to be dropped. *)
Fixpoint remove_go (old : string) (skip : nat) (s : string) : string :=
  match s with
  | EmptyString => EmptyString
  | String c s' =>
      match skip with
      | S k => remove_go old k s'
      | O =>
          if String.prefix old s
          then remove_go old (String.length old - 1) s'
          else String c (remove_go old 0 s')
      end
  end.

(** [s.replace(old, "")]; with an empty [old] and an empty replacement Python
    returns [s] unchanged. *)
Definition replace_with_empty (old s : string) : string :=
  match old with
  | EmptyString => s
  | _ => remove_go old 0 s
  end.

(** [s.startswith(p)] *)
Definition startswith (s p : string) : bool := String.prefix p s.

Definition is_paren (c : ascii) : bool :=
  bool_decide (c = "("%char) || bool_decide (c = ")"%char).

(** [re.split("\(|\)", s)]: the pattern has no capture group, so the result is
    the list of the pieces between consecutive parenthesis characters, empty
    pieces included; it has one more piece than [s] has parentheses. *)
Fixpoint re_split_parens (s : string) : list string :=
  match s with
  | EmptyString => [EmptyString]
  | String c s' =>
      if is_paren c then EmptyString :: re_split_parens s'
      else match re_split_parens s' with
           | piece :: pieces => String c piece :: pieces
           | [] => [String c EmptyString]
           end
  end.

(** The slice [l[::2]]: elements at indices 0, 2, 4, ... *)
Fixpoint slice_step2 {A : Type} (l : list A) : list A :=
  match l with
  | [] => []
  | x :: rest =>
      x :: match rest with
           | [] => []
           | _ :: rest' => slice_step2 rest'
           end
  end.

(** ["".join(l)] *)
Definition join_empty (l : list string) : string := String.concat "" l.

(** [x in s] for a substring [x]: does [x] start at some position of [s]. *)
Fixpoint occurs (x s : string) : bool :=
  String.prefix x s ||
  match s with
  | EmptyString => false
  | String _ s' => occurs x s'
  end.

(** No parenthesis character at all. *)
Fixpoint paren_free (s : string) : bool :=
  match s with
  | EmptyString => true
  | String c s' => negb (is_paren c) && paren_free s'
  end.

(** Parentheses properly nested: never more closers than openers while
    scanning, and none left open at the end. *)
Fixpoint balanced_from (depth : nat) (s : string) : bool :=
  match s with
  | EmptyString => bool_decide (depth = 0)
  | String c s' =>
      if bool_decide (c = "("%char) then balanced_from (S depth) s'
      else if bool_decide (c = ")"%char) then
        match depth with
        | O => false
        | S d => balanced_from d s'
        end
      else balanced_from depth s'
  end.

Definition balanced (s : string) : bool := balanced_from 0 s.

End PyStr.

(** ** [tidy] (identical in the three scripts) *)

Module Normalizer.
Import PyStr.

Definition family : string := "CheckNotYetImplementedTestCase".

(** Lines 8-11: the four [replace] calls, in source order. *)
Definition strip_namespaces (function_name : string) : string :=
  let function_name := replace_with_empty "arrow::" function_name in
  let function_name := replace_with_empty "engine::" function_name in
  let function_name := replace_with_empty "std::" function_name in
  replace_with_empty "(anonymous namespace)::" function_name.

(** Lines 12-13. *)
Definition collapse_family (function_name : string) : string :=
  if startswith function_name family then family else function_name.

(** Line 14. *)
Definition strip_groups (function_name : string) : string :=
  join_empty (slice_step2 (re_split_parens function_name)).

(** [str(function_name)] is the identity on a [str]. *)
Definition tidy (function_name : string) : string :=
  strip_groups (collapse_family (strip_namespaces function_name)).

End Normalizer.

(** ** Python exceptions and list primitives *)

Module Py.

Inductive exn : Type := ValueError | IndexError.

Inductive result (A : Type) : Type :=
  | Ok (a : A)
  | Raise (e : exn).
Arguments Ok {A} a.
Arguments Raise {A} e.

Definition bind {A B : Type} (r : result A) (k : A → result B) : result B :=
  match r with
  | Ok a => k a
  | Raise e => Raise e
  end.

Notation "x ←! r ; k" := (bind r (λ x, k))
  (at level 20, r at level 100, k at level 200, right associativity,
   format "x  ←!  r ;  '/' k").

Definition raises {A : Type} (r : result A) : bool :=
  match r with
  | Ok _ => false
  | Raise _ => true
  end.

(** [l.index(x)]: position of the first element equal to [x], [ValueError]
    when there is none. *)
Fixpoint list_index (x : string) (l : list string) : result nat :=
  match l with
  | [] => Raise ValueError
  | y :: l' =>
      if decide (x = y) then Ok 0
      else n ←! list_index x l'; Ok (S n)
  end.

(** [l[i]] for [i >= 0]: [IndexError] out of range. *)
Definition getitem (l : list string) (i : nat) : result string :=
  match l !! i with
  | Some x => Ok x
  | None => Raise IndexError
  end.

(** [range(len(l) - 1)]; for an empty list Python has [range(-1)], which is
    empty like [range(0)], as truncated subtraction gives here. *)
Definition range_len_pred {A : Type} (l : list A) : list nat :=
  seq 0 (length l - 1).

(** [str(n)] for a list position [n]: decimal digits, no sign, no leading
    zero. *)
Definition str_int (n : nat) : string := pretty n.

(** [list(s)] for a set [s] yields every element once, in an order the
    language leaves open (it follows the hash table, and string hashes change
    from run to run).  The scripts below therefore take the result of
    [list(self.function_names)] as an argument [function_names_list], which
    must satisfy this predicate. *)
Definition lists_set (l : list string) (s : gset string) : Prop :=
  NoDup l ∧ ∀ x, x ∈ l ↔ x ∈ s.

End Py.

(** ** [StackTraceBreakpoint.stop]: the frame walk (same loop in both scripts)

    The gdb frame chain is the list of [frame.function().name] values from
    [gdb.selected_frame()] outwards along [frame.older()], for a chain in
    which every frame has a function symbol.  [CaptureRaw] below has the
    loop for a chain in which [frame.function()] may be [None], and agrees
    with this one when it never is. *)

Module Capture.
Import Normalizer.

Fixpoint walk (frames : list string) (stack : list string)
    (function_names : gset string) : list string * gset string :=
  match frames with
  | [] => (stack, function_names)
  | name :: older =>
      let tidied_function_name := tidy name in
      walk older (stack ++ [tidied_function_name])
        (function_names ∪ {[tidied_function_name]})
  end.

End Capture.

(** ** python/view_call_graph.py *)

Module ViewCallGraph.
Import Py.

Record breakpoint : Type := Breakpoint {
  function_names : gset string;
  stacks : list (list string)
}.

(** [__init__] *)
Definition init : breakpoint :=
  {| function_names := ∅; stacks := [] |}.

(** [stop]; its return value [False] (do not halt) carries no state. *)
Definition stop (self : breakpoint) (frames : list string) : breakpoint :=
  let '(stack, names) := Capture.walk frames [] (function_names self) in
  {| function_names := names; stacks := stacks self ++ [stack] |}.

(** A session: [stop] once per breakpoint hit, in order. *)
Definition session (hits : list (list string)) : breakpoint :=
  foldl stop init hits.

(** What is handed to graphviz: [dot.node(id, label)] calls in order, and the
    set [self.edges], each element of which gets one [dot.edge] call. *)
Record graph : Type := Graph {
  nodes : list (string * string);
  edges : gset (string * string)
}.

(** Lines 43-44. *)
Definition number_nodes (function_names_list : list string)
    : list (string * string) :=
  imap (λ index function_name, (str_int index, function_name))
    function_names_list.

(** Lines 48-51, the loop over [i] for one [stack]. *)
Fixpoint add_stack_edges (function_names_list stack : list string)
    (indices : list nat) (edges : gset (string * string))
    : result (gset (string * string)) :=
  match indices with
  | [] => Ok edges
  | i :: rest =>
      caller ←! getitem stack (i + 1);
      from_node ←! list_index caller function_names_list;
      callee ←! getitem stack i;
      to_node ←! list_index callee function_names_list;
      add_stack_edges function_names_list stack rest
        (edges ∪ {[ (str_int from_node, str_int to_node) ]})
  end.

(** Lines 47-51. *)
Fixpoint add_edges (function_names_list : list string)
    (stacks : list (list string)) (edges : gset (string * string))
    : result (gset (string * string)) :=
  match stacks with
  | [] => Ok edges
  | stack :: rest =>
      edges' ←! add_stack_edges function_names_list stack
                  (range_len_pred stack) edges;
      add_edges function_names_list rest edges'
  end.

Definition create_and_view_graph (self : breakpoint)
    (function_names_list : list string) : result graph :=
  edges ←! add_edges function_names_list (stacks self) ∅;
  Ok {| nodes := number_nodes function_names_list; edges := edges |}.

End ViewCallGraph.

(** ** view_call_graph_interactive.py *)

Module Interactive.
Import Py.

(** One entry of [frame_locals]: the dict with keys ["name"] and ["value"]. *)
Record local : Type := Local { name : string; value : string }.

Record breakpoint : Type := Breakpoint {
  function_names : gset string;
  stacks_and_locals : list (list string * list local)
}.

Definition init : breakpoint :=
  {| function_names := ∅; stacks_and_locals := [] |}.

(** [stop]: a hit is the frame chain (every frame with a function symbol, as
    in [Capture]) and, for the selected frame, the
    [(str(symbol.name), symbol.value(frame).format_string())] pairs of
    [frame.block()]. *)
Definition stop (self : breakpoint)
    (hit : list string * list (string * string)) : breakpoint :=
  let frame_locals := (λ sym, {| name := sym.1; value := sym.2 |}) <$> hit.2 in
  let '(stack, names) := Capture.walk hit.1 [] (function_names self) in
  {| function_names := names;
     stacks_and_locals := stacks_and_locals self ++ [(stack, frame_locals)] |}.

Definition session (hits : list (list string * list (string * string)))
    : breakpoint :=
  foldl stop init hits.

(** [stack_index is selected_stack_index]: identity of objects, not equality
    of numbers.  [selected_stack_index] is [None] (from [on_exit]) or the
    int a table row carries as [user_data], which the [enumerate] of
    [create_and_show_stack_table] made; [stack_index] is made by the
    [enumerate] of this call.  CPython keeps one object per int from -5 to
    256, so two equal ints from different [enumerate]s are the same object
    exactly when the value is at most 256; above it they are two objects and
    [is] is false.  An int is never [None]. *)
Definition is_selected (stack_index : nat) (selected_stack_index : option nat)
    : bool :=
  bool_decide (selected_stack_index = Some stack_index ∧ stack_index ≤ 256).

Definition color_of (stack_index : nat) (selected_stack_index : option nat)
    : string :=
  if is_selected stack_index selected_stack_index then "red" else "black".

Record graph : Type := Graph {
  nodes : list (string * string);
  edges : gset (string * string * string)
}.

(** Lines 70-79, the loop over [i] for one [stack]. *)
Fixpoint add_stack_edges (function_names_list stack : list string)
    (color : string) (indices : list nat)
    (edges : gset (string * string * string))
    : result (gset (string * string * string)) :=
  match indices with
  | [] => Ok edges
  | i :: rest =>
      caller ←! getitem stack (i + 1);
      from_node ←! list_index caller function_names_list;
      callee ←! getitem stack i;
      to_node ←! list_index callee function_names_list;
      add_stack_edges function_names_list stack color rest
        (edges ∪ {[ (str_int from_node, str_int to_node, color) ]})
  end.

(** Lines 69-79; [stack_index] is the [enumerate] counter. *)
Fixpoint add_edges (function_names_list : list string)
    (selected_stack_index : option nat) (stack_index : nat)
    (stacks_and_locals : list (list string * list local))
    (edges : gset (string * string * string))
    : result (gset (string * string * string)) :=
  match stacks_and_locals with
  | [] => Ok edges
  | (stack, _) :: rest =>
      edges' ←! add_stack_edges function_names_list stack
                  (color_of stack_index selected_stack_index)
                  (range_len_pred stack) edges;
      add_edges function_names_list selected_stack_index (S stack_index)
        rest edges'
  end.

Definition create_and_view_graph (self : breakpoint)
    (function_names_list : list string) (selected_stack_index : option nat)
    : result graph :=
  edges ←! add_edges function_names_list selected_stack_index 0
             (stacks_and_locals self) ∅;
  Ok {| nodes := ViewCallGraph.number_nodes function_names_list;
        edges := edges |}.

End Interactive.

(** ** Reference notions the properties are stated against *)

Module Ref.

(** The (caller, callee) pairs of one stack, innermost frame first: the frame
    at [i + 1] called the frame at [i]. *)
Definition adjacencies (stack : list string) : list (string * string) :=
  zip (tail stack) stack.

(** The distinct (caller, callee) pairs seen over all stacks. *)
Definition observed (stacks : list (list string)) : gset (string * string) :=
  list_to_set (stacks ≫= adjacencies).

(** Position of [x] in [l] as a plain number ([length l] when absent). *)
Fixpoint position (x : string) (l : list string) : nat :=
  match l with
  | [] => 0
  | y :: l' => if decide (x = y) then 0 else S (position x l')
  end.

(** The graphviz edge drawn for a (caller, callee) pair. *)
Definition edge_of (function_names_list : list string) (p : string * string)
    : string * string :=
  (Py.str_int (position p.1 function_names_list),
   Py.str_int (position p.2 function_names_list)).

(** Every frame of every stack is a known function name. *)
Definition frames_known (stacks : list (list string)) (names : gset string)
    : Prop :=
  ∀ stack f, stack ∈ stacks → f ∈ stack → f ∈ names.

(** Names in the order of their first appearance, stack by stack and
    innermost frame first. *)
Fixpoint first_seen_from (seen : list string) (frames : list string)
    : list string :=
  match frames with
  | [] => seen
  | f :: rest =>
      first_seen_from (if decide (f ∈ seen) then seen else seen ++ [f]) rest
  end.

Definition first_seen (stacks : list (list string)) : list string :=
  first_seen_from [] (concat stacks).

(** The graph draws an edge from the node labelled [caller] to the node
    labelled [callee]. *)
Definition draws (g : ViewCallGraph.graph) (caller callee : string) : Prop :=
  ∃ a b, (a, b) ∈ ViewCallGraph.edges g ∧
         (a, caller) ∈ ViewCallGraph.nodes g ∧
         (b, callee) ∈ ViewCallGraph.nodes g.

(** The distinct graphviz edges of the observed pairs. *)
Definition id_edges (function_names_list : list string)
    (stacks : list (list string)) : gset (string * string) :=
  set_map (edge_of function_names_list) (observed stacks).

Definition paint (color : string) (e : string * string)
    : string * string * string :=
  (e.1, e.2, color).

(** The coloured edges contributed by the stacks from counter [stack_index]
    on. *)
Fixpoint colored (function_names_list : list string) (selected : option nat)
    (stack_index : nat) (stacks : list (list string))
    : gset (string * string * string) :=
  match stacks with
  | [] => ∅
  | stack :: rest =>
      set_map (paint (Interactive.color_of stack_index selected))
        (id_edges function_names_list [stack])
      ∪ colored function_names_list selected (S stack_index) rest
  end.

(** A normalised name on which a second [tidy] has nothing left to do: none
    of the three parenthesis-free prefixes occurs in it, and it does not go on
    after the family prefix. *)
Definition settled (t : string) : bool :=
  negb (PyStr.occurs "arrow::" t) && negb (PyStr.occurs "engine::" t)
  && negb (PyStr.occurs "std::" t)
  && (negb (PyStr.startswith t Normalizer.family)
      || bool_decide (t = Normalizer.family)).

End Ref.

(** ** Concrete sessions *)

Module Examples.

(** The same two-frame stack hit twice. *)
Definition twice : Interactive.breakpoint :=
  Interactive.session [(["C"; "B"], []); (["C"; "B"], [])].

(** Three hits. *)
Definition three : Interactive.breakpoint :=
  Interactive.session
    [(["C"; "B"; "A"], []); (["C"; "D"; "A"], []); (["C"; "B"; "A"], [])].

End Examples.

(** ** view_call_graph_interactive.py: the stack table and the exit hook *)

Module StackTable.
Import Py.

(** [l[-n]] for [n >= 1]: the [n]-th element from the end, [IndexError] when
    the list has fewer than [n] elements. *)
Definition getitem_from_end (l : list string) (n : nat) : result string :=
  if decide (n ≤ length l) then getitem l (length l - n) else Raise IndexError.

(** One [dpg.table_row]: the selectable with its label and [user_data], one
    text per local, and the text of [stack[-12]]. *)
Record row : Type := Row {
  label : string;
  user_data : nat;
  cells : list string;
  test_name : string
}.

(** The table handed to dearpygui: the column labels in the order they are
    added, and the rows. *)
Record table : Type := Table {
  columns : list string;
  rows : list row
}.

(** Lines 115-127; [index] is the [enumerate] counter, [f"{index}"] is
    [str(index)], and [local["value"]] reads the key [stop] has stored.  A
    row whose [stack[-12]] raises ends the loop with that exception. *)
Fixpoint add_rows (index : nat)
    (stacks_and_locals : list (list string * list Interactive.local))
    : result (list row) :=
  match stacks_and_locals with
  | [] => Ok []
  | (stack, locals) :: rest =>
      test ←! getitem_from_end stack 12;
      more ←! add_rows (S index) rest;
      Ok ({| label := str_int index; user_data := index;
             cells := Interactive.value <$> locals;
             test_name := test |} :: more)
  end.

(** Lines 87-133.  [self.stacks_and_locals[0][1]] raises [IndexError] on an
    empty list; the columns are added before the rows. *)
Definition create_and_show_stack_table (self : Interactive.breakpoint)
    : result table :=
  match Interactive.stacks_and_locals self !! 0 with
  | None => Raise IndexError
  | Some (_, first_locals) =>
      let columns :=
        ["Stack Index"] ++ (Interactive.name <$> first_locals)
        ++ ["test name"] in
      rows ←! add_rows 0 (Interactive.stacks_and_locals self);
      Ok {| columns := columns; rows := rows |}
  end.

(** Lines 135-137, which [ExitBreakpoint.stop] calls as [do_on_exit]. *)
Definition on_exit (self : Interactive.breakpoint)
    (function_names_list : list string)
    : result (Interactive.graph * table) :=
  g ←! Interactive.create_and_view_graph self function_names_list None;
  t ←! create_and_show_stack_table self;
  Ok (g, t).

End StackTable.

(** ** print_stack.py *)

Module PrintStack.
Import Normalizer.

(** The [while frame:] loop, for a chain in which every frame has a function
    symbol; [printed] collects the lines in order. *)
Fixpoint walk (frames : list string) (printed : list string) : list string :=
  match frames with
  | [] => printed
  | name :: older => walk older (printed ++ [tidy name])
  end.

(** [stop]: the printed lines and the return value [True] (halt). *)
Definition stop (frames : list string) : list string * bool :=
  (walk frames [], true).

End PrintStack.

(** ** [stop] on a frame chain with frames that have no function

    [frame.function()] is [None] for a frame gdb has no symbol for, and
    reading [.name] of [None] raises AttributeError.  This ends [stop] at
    line 29 of python/view_call_graph.py: the names the loop has added so far
    stay in [self.function_names], and line 35 is not reached, so no stack is
    appended for this hit. *)

Module CaptureRaw.
Import Normalizer.

(** What [frame.function()] gives: [Some name] for a symbol with that
    [.name], [None] for no symbol. *)
Definition frame : Type := option string.

(** Lines 28-33.  The first component is the local [stack] when the loop
    ends with the chain, and [None] when line 29 raised; the second is
    [self.function_names] as the loop leaves it, either way. *)
Fixpoint walk (frames : list frame) (stack : list string)
    (function_names : gset string) : option (list string) * gset string :=
  match frames with
  | [] => (Some stack, function_names)
  | None :: _ => (None, function_names)
  | Some name :: older =>
      let tidied_function_name := tidy name in
      walk older (stack ++ [tidied_function_name])
        (function_names ∪ {[tidied_function_name]})
  end.

(** [stop] as it leaves the breakpoint object, whether it returned or
    raised. *)
Definition stop (self : ViewCallGraph.breakpoint) (frames : list frame)
    : ViewCallGraph.breakpoint :=
  match walk frames [] (ViewCallGraph.function_names self) with
  | (Some stack, names) =>
      {| ViewCallGraph.function_names := names;
         ViewCallGraph.stacks := ViewCallGraph.stacks self ++ [stack] |}
  | (None, names) =>
      {| ViewCallGraph.function_names := names;
         ViewCallGraph.stacks := ViewCallGraph.stacks self |}
  end.

Definition session (hits : list (list frame)) : ViewCallGraph.breakpoint :=
  foldl stop ViewCallGraph.init hits.

End CaptureRaw.

(** ** Further reference notions *)

Module Ref2.
Import PyStr.

(** The characters of a name, in order. *)
Fixpoint chars (s : string) : list ascii :=
  match s with
  | EmptyString => []
  | String c s' => c :: chars s'
  end.

(** One pass over the name with a switch that every parenthesis flips: a
    character is kept when it is no parenthesis and the switch is on. *)
Fixpoint keep_outside (keeping : bool) (s : string) : string :=
  match s with
  | EmptyString => EmptyString
  | String c s' =>
      if is_paren c then keep_outside (negb keeping) s'
      else if keeping then String c (keep_outside keeping s')
      else keep_outside keeping s'
  end.

(** The three replacements of [tidy] whose pattern has no parenthesis. *)
Definition plain_namespaces (s : string) : string :=
  replace_with_empty "std::"
    (replace_with_empty "engine::" (replace_with_empty "arrow::" s)).

(** An edge of the interactive graph without its colour. *)
Definition uncolor (e : string * string * string) : string * string :=
  (e.1.1, e.1.2).

(** Both names of a (caller, callee) pair are in the list. *)
Definition pair_known (names : list string) (p : string * string) : Prop :=
  p.1 ∈ names ∧ p.2 ∈ names.

(** What [stop] stores for a hit of the interactive script. *)
Definition recorded (hit : list string * list (string * string))
    : list string * list Interactive.local :=
  (Normalizer.tidy <$> hit.1,
   (λ sym, {| Interactive.name := sym.1; Interactive.value := sym.2 |})
     <$> hit.2).

(** Deep enough for [stack[-12]]. *)
Definition deep (e : list string * list Interactive.local) : Prop :=
  12 ≤ length e.1.

(** The names of the frames of a chain up to its first frame without a
    function. *)
Fixpoint walked (frames : list CaptureRaw.frame) : list string :=
  match frames with
  | Some name :: older => name :: walked older
  | _ => []
  end.

(** The names of all frames of a chain, when every frame has a function. *)
Fixpoint complete (frames : list CaptureRaw.frame) : option (list string) :=
  match frames with
  | [] => Some []
  | None :: _ => None
  | Some name :: older => cons name <$> complete older
  end.

End Ref2.

Module Examples2.

(** A hit thirteen frames deep with two locals. *)
Definition deep_hit : list string * list (string * string) :=
  (["arrow::Import(int)"; "TestBody"; "f10"; "f9"; "f8"; "f7"; "f6"; "f5";
    "f4"; "f3"; "f2"; "f1"; "main"],
   [("n", "3"); ("ok", "true")]).

(** A hit whose middle frame has no function symbol. *)
Definition stripped_hit : list CaptureRaw.frame :=
  [Some "f(int)"; None; Some "main"].

End Examples2.

(** * Facts about the string primitives *)

Module StrFacts.
Import PyStr.

Lemma slice_step2_pair_ind {A : Type} (P : list A → Prop) :
  P [] → (∀ x, P [x]) → (∀ x y l, P l → P (x :: y :: l)) → ∀ l, P l.
Proof.
  intros Hnil Hone Hstep.
  assert (H : ∀ l, P l ∧ ∀ x, P (x :: l)).
  { induction l as [|y l [IH1 IH2]]; split; auto. }
  intros l. apply H.
Qed.

Lemma slice_step2_Forall {A : Type} (P : A → Prop) l :
  Forall P l → Forall P (slice_step2 l).
Proof.
  induction l as [| x | x y l IH] using slice_step2_pair_ind; intros H.
  - constructor.
  - exact H.
  - inversion H as [|? ? Hx Hrest]; subst.
    inversion Hrest; subst. simpl. constructor; auto.
Qed.

Lemma re_split_parens_nonempty s : re_split_parens s ≠ [].
Proof.
  destruct s as [|c s]; simpl; [done|].
  destruct (is_paren c); [done|]. by destruct (re_split_parens s).
Qed.

Lemma re_split_parens_pieces s :
  Forall (λ piece, paren_free piece = true) (re_split_parens s).
Proof.
  induction s as [|c s IH]; simpl.
  - by repeat constructor.
  - destruct (is_paren c) eqn:Hc.
    + by constructor.
    + destruct (re_split_parens s) as [|piece pieces].
      * repeat constructor. simpl. by rewrite Hc.
      * inversion IH; subst. constructor; [|done]. simpl. by rewrite Hc.
Qed.

Lemma paren_free_app a b :
  paren_free (a +:+ b) = paren_free a && paren_free b.
Proof.
  induction a as [|c a IH]; simpl; [done|]. rewrite IH. by rewrite andb_assoc.
Qed.

Lemma join_empty_cons x l : join_empty (x :: l) = x +:+ join_empty l.
Proof.
  unfold join_empty. destruct l as [|y l]; simpl.
  - induction x as [|c x IH]; [done|].
    change (String c x = String c (x +:+ "")). by f_equal.
  - done.
Qed.

Lemma join_empty_paren_free l :
  Forall (λ piece, paren_free piece = true) l → paren_free (join_empty l) = true.
Proof.
  induction 1 as [|x l Hx _ IH]; [done|].
  rewrite join_empty_cons, paren_free_app, Hx, IH. done.
Qed.

Lemma re_split_parens_paren_free s :
  paren_free s = true → re_split_parens s = [s].
Proof.
  induction s as [|c s IH]; simpl; [done|].
  intros [Hc Hs]%andb_true_iff. apply negb_true_iff in Hc.
  rewrite Hc, (IH Hs). done.
Qed.

Lemma re_split_parens_app a c rest :
  paren_free a = true → is_paren c = true →
  re_split_parens (a +:+ String c rest) = a :: re_split_parens rest.
Proof.
  intros Ha Hc. induction a as [|d a IH]; simpl in *.
  - by rewrite Hc.
  - apply andb_true_iff in Ha as [Hd Ha]. apply negb_true_iff in Hd.
    rewrite Hd, (IH Ha). done.
Qed.

Lemma remove_go_paren_free old k s :
  paren_free s = true → paren_free (remove_go old k s) = true.
Proof.
  revert k. induction s as [|c s IH]; intros k; [done|].
  cbn [remove_go paren_free]. intros [Hc Hs]%andb_true_iff.
  destruct k; [|by apply IH].
  destruct (String.prefix old (String c s)); [by apply IH|].
  cbn [paren_free]. rewrite Hc. by apply IH.
Qed.

Lemma replace_with_empty_paren_free old s :
  paren_free s = true → paren_free (replace_with_empty old s) = true.
Proof. destruct old; simpl; [done|]. apply remove_go_paren_free. Qed.

Lemma remove_go_absent old s :
  occurs old s = false → remove_go old 0 s = s.
Proof.
  induction s as [|c s IH]; [done|].
  cbn [occurs remove_go]. intros [Hp Hs]%orb_false_iff.
  rewrite Hp, (IH Hs). done.
Qed.

Lemma replace_with_empty_absent old s :
  occurs old s = false → replace_with_empty old s = s.
Proof. destruct old; [done|]. apply remove_go_absent. Qed.

Lemma occurs_paren_free c x s :
  is_paren c = true → paren_free s = true → occurs (String c x) s = false.
Proof.
  intros Hc. induction s as [|d s IH]; [done|].
  cbn [occurs paren_free]. intros [Hd Hs]%andb_true_iff.
  rewrite (IH Hs), orb_false_r. simpl.
  destruct (ascii_dec c d) as [->|]; [|done].
  rewrite Hc in Hd. done.
Qed.

Lemma prefix_length p s : String.prefix p s = true → (String.length p ≤ String.length s)%nat.
Proof.
  revert s. induction p as [|c p IH]; intros [|d s]; simpl; try done; [lia|].
  destruct (ascii_dec c d); [|done]. intros H%IH. lia.
Qed.

Lemma prefix_same_length p s :
  String.prefix p s = true → (String.length s ≤ String.length p)%nat → p = s.
Proof.
  revert s. induction p as [|c p IH]; intros [|d s]; simpl; try done; [lia|].
  destruct (ascii_dec c d) as [->|]; [|done].
  intros Hp Hl. f_equal. apply IH; [done|lia].
Qed.

Lemma remove_go_length old k s :
  (String.length (remove_go old k s) ≤ String.length s)%nat.
Proof.
  revert k. induction s as [|c s IH]; intros k; [done|].
  cbn [remove_go String.length]. destruct k.
  - destruct (String.prefix old (String c s)).
    + specialize (IH (String.length old - 1)). lia.
    + cbn [String.length]. specialize (IH 0). lia.
  - specialize (IH k). lia.
Qed.

Lemma remove_go_shrinks old s :
  old ≠ "" → occurs old s = true →
  (String.length (remove_go old 0 s) < String.length s)%nat.
Proof.
  intros Hold. induction s as [|c s IH].
  - destruct old; done.
  - cbn [occurs remove_go String.length].
    destruct (String.prefix old (String c s)) eqn:Hp.
    + intros _. pose proof (remove_go_length old (String.length old - 1) s). lia.
    + rewrite orb_false_l. intros H%IH. cbn [String.length]. lia.
Qed.

Lemma replace_with_empty_length old s :
  (String.length (replace_with_empty old s) ≤ String.length s)%nat.
Proof. destruct old; [done|]. apply remove_go_length. Qed.

Lemma replace_with_empty_same_length old s :
  old ≠ "" →
  (String.length (replace_with_empty old s) = String.length s)%nat →
  occurs old s = false.
Proof.
  intros Hold Hlen. destruct (occurs old s) eqn:Ho; [|done].
  destruct old as [|c old]; [done|].
  apply remove_go_shrinks in Ho; [|done]. unfold replace_with_empty in Hlen. lia.
Qed.

End StrFacts.

(** * Facts about [tidy] *)

Module TidyFacts.
Import PyStr Normalizer Ref StrFacts.

Lemma strip_groups_paren_free s : paren_free s = true → strip_groups s = s.
Proof.
  intros H. unfold strip_groups. rewrite (re_split_parens_paren_free s H).
  cbn [slice_step2]. rewrite join_empty_cons. unfold join_empty. simpl.
  induction s as [|c s IH]; [done|].
  apply andb_true_iff in H as [_ H].
  change (String c (s +:+ "") = String c s). f_equal. auto.
Qed.

Lemma strip_groups_no_paren s : paren_free (strip_groups s) = true.
Proof.
  unfold strip_groups. apply join_empty_paren_free, slice_step2_Forall,
    re_split_parens_pieces.
Qed.

Lemma tidy_paren_free r : paren_free (tidy r) = true.
Proof. apply strip_groups_no_paren. Qed.

Lemma strip_namespaces_paren_free s :
  paren_free s = true → paren_free (strip_namespaces s) = true.
Proof.
  intros H. unfold strip_namespaces.
  by do 4 apply replace_with_empty_paren_free.
Qed.

Lemma collapse_family_paren_free s :
  paren_free s = true → paren_free (collapse_family s) = true.
Proof. intros H. unfold collapse_family. by destruct (startswith s family). Qed.

Lemma tidy_without_parens r :
  paren_free r = true → tidy r = collapse_family (strip_namespaces r).
Proof.
  intros H. unfold tidy.
  by apply strip_groups_paren_free, collapse_family_paren_free,
    strip_namespaces_paren_free.
Qed.

Lemma strip_groups_lone_paren a c b :
  paren_free a = true → is_paren c = true → paren_free b = true →
  strip_groups (a +:+ String c b) = a.
Proof.
  intros Ha Hc Hb. unfold strip_groups.
  rewrite (re_split_parens_app a c b Ha Hc), (re_split_parens_paren_free b Hb).
  cbn [slice_step2]. rewrite join_empty_cons. unfold join_empty. simpl.
  clear. induction a as [|d a IH]; [done|].
  change (String d (a +:+ "") = String d a). by f_equal.
Qed.

Lemma collapse_family_length s :
  (String.length (collapse_family s) ≤ String.length s)%nat.
Proof.
  unfold collapse_family, startswith.
  destruct (String.prefix family s) eqn:Hp; [|done]. by apply prefix_length.
Qed.

Lemma settled_fixed t :
  paren_free t = true → settled t = true → tidy t = t.
Proof.
  intros Hpf Hs. unfold settled in Hs.
  repeat (apply andb_true_iff in Hs as [Hs ?]).
  repeat match goal with H : negb _ = true |- _ => apply negb_true_iff in H end.
  rewrite tidy_without_parens by done. unfold strip_namespaces.
  rewrite (replace_with_empty_absent "arrow::" t) by done.
  rewrite (replace_with_empty_absent "engine::" t) by done.
  rewrite (replace_with_empty_absent "std::" t) by done.
  rewrite (replace_with_empty_absent _ t)
    by (by apply occurs_paren_free).
  unfold collapse_family.
  destruct (startswith t family) eqn:Hst; [|done].
  match goal with H : _ || _ = true |- _ => apply orb_true_iff in H as [H|H] end;
    [done|]. by apply bool_decide_eq_true in H.
Qed.

Lemma fixed_settled t :
  paren_free t = true → tidy t = t → settled t = true.
Proof.
  intros Hpf Hfix. rewrite tidy_without_parens in Hfix by done.
  pose proof (collapse_family_length (strip_namespaces t)) as L5.
  unfold strip_namespaces in *.
  set (t1 := replace_with_empty "arrow::" t) in *.
  set (t2 := replace_with_empty "engine::" t1) in *.
  set (t3 := replace_with_empty "std::" t2) in *.
  set (t4 := replace_with_empty "(anonymous namespace)::" t3) in *.
  pose proof (replace_with_empty_length "arrow::" t) as L1.
  pose proof (replace_with_empty_length "engine::" t1) as L2.
  pose proof (replace_with_empty_length "std::" t2) as L3.
  pose proof (replace_with_empty_length "(anonymous namespace)::" t3) as L4.
  fold t1 in L1. fold t2 in L2. fold t3 in L3. fold t4 in L4.
  rewrite Hfix in L5.
  assert (H1 : occurs "arrow::" t = false).
  { apply replace_with_empty_same_length; [done|]. fold t1. lia. }
  assert (E1 : t1 = t) by (by apply replace_with_empty_absent).
  assert (H2 : occurs "engine::" t = false).
  { rewrite <- E1 at 1. apply replace_with_empty_same_length; [done|].
    fold t2. lia. }
  assert (E2 : t2 = t).
  { unfold t2. rewrite E1. by apply replace_with_empty_absent. }
  assert (H3 : occurs "std::" t = false).
  { rewrite <- E2 at 1. apply replace_with_empty_same_length; [done|].
    fold t3. lia. }
  assert (E3 : t3 = t).
  { unfold t3. rewrite E2. by apply replace_with_empty_absent. }
  assert (E4 : t4 = t).
  { unfold t4. rewrite E3. by apply replace_with_empty_absent, occurs_paren_free. }
  rewrite E4 in Hfix. unfold settled. rewrite H1, H2, H3. simpl.
  unfold collapse_family in Hfix.
  destruct (startswith t family); [|done].
  simpl. by apply bool_decide_eq_true.
Qed.

End TidyFacts.

(** * Facts about positions, adjacent pairs and set sizes *)

Module ListFacts.
Import Py Ref.

Lemma position_lookup x l : x ∈ l → l !! position x l = Some x.
Proof.
  induction l as [|y l IH]; [by intros ?%elem_of_nil|].
  intros Hx. simpl. destruct (decide (x = y)) as [->|Hne]; [done|].
  apply elem_of_cons in Hx as [?|Hx]; [done|]. by apply IH.
Qed.

Lemma position_first x l i :
  l !! i = Some x → position x l ≤ i.
Proof.
  revert i. induction l as [|y l IH]; intros i; [done|].
  simpl. destruct (decide (x = y)); [lia|].
  destruct i as [|i]; simpl; [congruence|]. intros H%IH. lia.
Qed.

Lemma list_index_position x l : x ∈ l → list_index x l = Ok (position x l).
Proof.
  induction l as [|y l IH]; [by intros ?%elem_of_nil|].
  intros Hx. simpl. destruct (decide (x = y)) as [->|Hne]; [done|].
  apply elem_of_cons in Hx as [?|Hx]; [done|]. by rewrite IH.
Qed.

Lemma list_index_absent x l : x ∉ l → list_index x l = Raise ValueError.
Proof.
  induction l as [|y l IH]; [done|].
  intros Hx. simpl. apply not_elem_of_cons in Hx as [Hne Hx].
  destruct (decide (x = y)); [done|]. by rewrite IH.
Qed.

Lemma position_inj l x y :
  x ∈ l → y ∈ l → position x l = position y l → x = y.
Proof.
  intros Hx%position_lookup Hy%position_lookup E. rewrite E in Hx. congruence.
Qed.

Lemma position_NoDup l i x : NoDup l → l !! i = Some x → position x l = i.
Proof.
  intros Hnd Hi. eapply NoDup_lookup; [done| |done].
  apply position_lookup. by eapply list_elem_of_lookup_2.
Qed.

Lemma adjacencies_lookup stack i c e :
  adjacencies stack !! i = Some (c, e) ↔
  stack !! (i + 1) = Some c ∧ stack !! i = Some e.
Proof.
  unfold adjacencies. rewrite lookup_zip_with, lookup_tail.
  replace (i + 1) with (S i) by lia.
  destruct (stack !! S i), (stack !! i); simpl; split; intros; destruct_and?; simplify_eq; done.
Qed.

Lemma adjacencies_length stack : length (adjacencies stack) = length stack - 1.
Proof.
  unfold adjacencies. rewrite length_zip. destruct stack; simpl; lia.
Qed.

Lemma adjacencies_known stack c e :
  (c, e) ∈ adjacencies stack → c ∈ stack ∧ e ∈ stack.
Proof.
  intros [i Hi]%list_elem_of_lookup_1. apply adjacencies_lookup in Hi as [? ?].
  split; by eapply list_elem_of_lookup_2.
Qed.

Lemma edge_of_inj names p q :
  p.1 ∈ names → p.2 ∈ names → q.1 ∈ names → q.2 ∈ names →
  edge_of names p = edge_of names q → p = q.
Proof.
  destruct p as [c e], q as [c' e']. unfold edge_of, str_int. simpl.
  intros ???? [= H1%(inj pretty) H2%(inj pretty)].
  f_equal; by eapply position_inj.
Qed.

Lemma size_set_map_inj `{Countable A, Countable B} (f : A → B) (X : gset A) :
  (∀ x y, x ∈ X → y ∈ X → f x = f y → x = y) →
  size (set_map f X : gset B) = size X.
Proof.
  induction X as [|x X Hx IH] using set_ind_L; intros Hinj.
  - by rewrite set_map_empty, !size_empty.
  - rewrite set_map_union_L, set_map_singleton_L.
    rewrite !size_union, !size_singleton.
    + rewrite IH; [done|]. intros ?? ??. apply Hinj; set_solver.
    + set_solver.
    + apply disjoint_singleton_l. intros [y [Hy Hin]]%elem_of_map.
      apply Hinj in Hy; set_solver.
Qed.

End ListFacts.

(** * Facts about capture and about the edge loops *)

Module CaptureFacts.
Import Normalizer Ref.

Lemma walk_spec frames stack names :
  Capture.walk frames stack names =
  (stack ++ (tidy <$> frames), names ∪ list_to_set (tidy <$> frames)).
Proof.
  revert stack names. induction frames as [|f frames IH]; intros stack names.
  - simpl. rewrite app_nil_r. f_equal. set_solver.
  - cbn [Capture.walk]. rewrite IH, <- app_assoc. f_equal.
    rewrite fmap_cons, list_to_set_cons. set_solver.
Qed.

Lemma frames_known_snoc stacks stack names names' :
  frames_known stacks names → names ⊆ names' →
  (∀ f, f ∈ stack → f ∈ names') →
  frames_known (stacks ++ [stack]) names'.
Proof.
  intros Hk Hsub Hnew s f [Hs|Hs]%elem_of_app Hf.
  - apply Hsub. by eapply Hk.
  - apply list_elem_of_singleton in Hs as ->. by apply Hnew.
Qed.

End CaptureFacts.

Module ViewFacts.
Import Py Ref ListFacts CaptureFacts Normalizer ViewCallGraph.

Lemma stop_function_names self frames :
  function_names (stop self frames) =
  function_names self ∪ list_to_set (tidy <$> frames).
Proof. unfold stop. by rewrite walk_spec. Qed.

Lemma stop_stacks self frames :
  stacks (stop self frames) = stacks self ++ [tidy <$> frames].
Proof. unfold stop. by rewrite walk_spec. Qed.

Lemma stop_known self frames :
  frames_known (stacks self) (function_names self) →
  frames_known (stacks (stop self frames)) (function_names (stop self frames)).
Proof.
  intros H. rewrite stop_function_names, stop_stacks.
  eapply frames_known_snoc; [done|set_solver|]. set_solver.
Qed.

Lemma foldl_stop_known hits self :
  frames_known (stacks self) (function_names self) →
  frames_known (stacks (foldl stop self hits))
    (function_names (foldl stop self hits)).
Proof.
  revert self. induction hits as [|hit hits IH]; intros self H; [done|].
  simpl. by apply IH, stop_known.
Qed.

Lemma session_known hits :
  frames_known (stacks (session hits)) (function_names (session hits)).
Proof. apply foldl_stop_known. intros ?? []%elem_of_nil. Qed.

Lemma foldl_stop_stacks hits self :
  stacks (foldl stop self hits) = stacks self ++ (fmap (M:=list) tidy <$> hits).
Proof.
  revert self. induction hits as [|hit hits IH]; intros self; simpl.
  - by rewrite app_nil_r.
  - by rewrite IH, stop_stacks, <- app_assoc.
Qed.

Lemma foldl_stop_function_names hits self :
  function_names (foldl stop self hits) =
  function_names self ∪ list_to_set (concat (fmap (M:=list) tidy <$> hits)).
Proof.
  revert self. induction hits as [|hit hits IH]; intros self; simpl.
  - set_solver.
  - rewrite IH, stop_function_names, list_to_set_app_L. set_solver.
Qed.

Lemma session_stacks hits : stacks (session hits) = fmap (M:=list) tidy <$> hits.
Proof. unfold session. by rewrite foldl_stop_stacks. Qed.

Lemma session_function_names hits :
  function_names (session hits) = list_to_set (concat (fmap (M:=list) tidy <$> hits)).
Proof. unfold session. rewrite foldl_stop_function_names. set_solver. Qed.

(** The inner loop over a run of consecutive indices. *)
Lemma add_stack_edges_run names stack n k E :
  (∀ f, f ∈ stack → f ∈ names) →
  k + n ≤ length (adjacencies stack) →
  add_stack_edges names stack (seq k n) E =
  Ok (E ∪ list_to_set (edge_of names <$> take n (drop k (adjacencies stack)))).
Proof.
  intros Hin. revert k E. induction n as [|n IH]; intros k E Hlen.
  - simpl. f_equal. set_solver.
  - destruct (lookup_lt_is_Some_2 (adjacencies stack) k) as [[c e] Hk]; [lia|].
    pose proof Hk as [Hc He]%adjacencies_lookup.
    cbn [seq add_stack_edges]. unfold getitem. rewrite Hc, He. cbn [bind].
    rewrite !list_index_position
      by (apply Hin; by eapply list_elem_of_lookup_2).
    cbn [bind]. rewrite IH by lia.
    rewrite (drop_S _ _ _ Hk). cbn [take fmap list_fmap].
    rewrite list_to_set_cons. f_equal. unfold edge_of. simpl. set_solver.
Qed.

Lemma add_stack_edges_spec names stack E :
  (∀ f, f ∈ stack → f ∈ names) →
  add_stack_edges names stack (range_len_pred stack) E =
  Ok (E ∪ list_to_set (edge_of names <$> adjacencies stack)).
Proof.
  intros Hin. unfold range_len_pred. rewrite <- adjacencies_length.
  rewrite add_stack_edges_run by (done || lia).
  by rewrite drop_0, firstn_all.
Qed.

Lemma add_edges_spec names stacks E :
  (∀ stack f, stack ∈ stacks → f ∈ stack → f ∈ names) →
  add_edges names stacks E =
  Ok (E ∪ set_map (edge_of names) (observed stacks)).
Proof.
  revert E. induction stacks as [|stack stacks IH]; intros E Hin.
  - simpl. f_equal. unfold observed. simpl. set_solver.
  - cbn [add_edges]. rewrite add_stack_edges_spec
      by (intros; eapply Hin; [apply list_elem_of_here|done]).
    cbn [bind]. rewrite IH by (intros; eapply Hin; [by apply list_elem_of_further|done]).
    f_equal. unfold observed. cbn [mbind list_bind].
    rewrite (list_to_set_app_L (adjacencies stack)), set_map_union_L.
    rewrite <- list_to_set_fmap_L. set_solver.
Qed.

End ViewFacts.

(** * Facts about the rendered graph *)

Module GraphFacts.
Import Py Ref ListFacts CaptureFacts ViewFacts Normalizer.

Lemma lists_set_of_list l (s : gset string) :
  NoDup l → s = list_to_set l → lists_set l s.
Proof. intros Hnd ->. split; [done|]. intros x. by rewrite elem_of_list_to_set. Qed.

Lemma observed_cons stack stacks :
  observed (stack :: stacks) = observed [stack] ∪ observed stacks.
Proof.
  unfold observed. cbn [mbind list_bind]. rewrite app_nil_r.
  apply list_to_set_app_L.
Qed.

Lemma observed_nil : observed [] = ∅.
Proof. done. Qed.

Lemma elem_of_observed stacks c e :
  (c, e) ∈ observed stacks ↔
  ∃ stack, stack ∈ stacks ∧ (c, e) ∈ adjacencies stack.
Proof.
  unfold observed. rewrite elem_of_list_to_set, list_elem_of_bind.
  naive_solver.
Qed.

Lemma observed_app s1 s2 : observed (s1 ++ s2) = observed s1 ∪ observed s2.
Proof. unfold observed. by rewrite bind_app, list_to_set_app_L. Qed.

Lemma observed_perm s1 s2 : s1 ≡ₚ s2 → observed s1 = observed s2.
Proof. intros H. unfold observed. by rewrite H. Qed.

Lemma observed_known stacks names p :
  frames_known stacks names → p ∈ observed stacks → p.1 ∈ names ∧ p.2 ∈ names.
Proof.
  destruct p as [c e]. intros Hk (stack & Hs & Hp)%elem_of_observed.
  apply adjacencies_known in Hp as [? ?]. split; by eapply Hk.
Qed.

Lemma id_edges_cons names stack stacks :
  id_edges names (stack :: stacks) =
  id_edges names [stack] ∪ id_edges names stacks.
Proof. unfold id_edges. by rewrite observed_cons, set_map_union_L. Qed.

Lemma elem_of_number_nodes names a f :
  (a, f) ∈ ViewCallGraph.number_nodes names ↔
  ∃ i, a = str_int i ∧ names !! i = Some f.
Proof.
  unfold ViewCallGraph.number_nodes. rewrite elem_of_lookup_imap.
  naive_solver.
Qed.

Lemma number_nodes_labels names : (ViewCallGraph.number_nodes names).*2 = names.
Proof.
  unfold ViewCallGraph.number_nodes. rewrite fmap_imap.
  induction names as [|x l IH] using rev_ind; [done|].
  rewrite imap_app. simpl. by rewrite IH.
Qed.

(** What follows from [names] listing the set [fn]. *)
Section listing.
Variables (names : list string) (fn : gset string).
Hypothesis Hls : lists_set names fn.

Lemma lists_set_length : length names = size fn.
Proof.
  destruct Hls as [Hnd Hin].
  rewrite <- (size_list_to_set (C:=gset string) names Hnd).
  f_equal. apply set_eq. intros x. by rewrite elem_of_list_to_set.
Qed.

Lemma listed_position f : f ∈ fn → names !! position f names = Some f.
Proof. intros Hf. by apply position_lookup, Hls. Qed.

Lemma id_edges_size stacks :
  frames_known stacks fn →
  size (id_edges names stacks) = size (observed stacks).
Proof.
  intros Hk. apply size_set_map_inj. intros p q Hp Hq.
  destruct (observed_known _ _ _ Hk Hp), (observed_known _ _ _ Hk Hq).
  apply edge_of_inj; by apply Hls.
Qed.

Lemma draws_observed stacks c e :
  frames_known stacks fn →
  draws {| ViewCallGraph.nodes := ViewCallGraph.number_nodes names;
           ViewCallGraph.edges := id_edges names stacks |} c e ↔
  (c, e) ∈ observed stacks.
Proof.
  intros Hk. unfold draws. simpl. split.
  - intros (a & b & Hab & Ha & Hb).
    apply elem_of_map in Hab as ([c' e'] & [= -> ->] & Hp).
    destruct (observed_known _ _ _ Hk Hp) as [Hc He]. simpl in *.
    apply listed_position in Hc. apply listed_position in He.
    apply elem_of_number_nodes in Ha as (i & <-%(inj pretty) & Hi).
    apply elem_of_number_nodes in Hb as (j & <-%(inj pretty) & Hj).
    by simplify_eq.
  - intros Hp. destruct (observed_known _ _ _ Hk Hp) as [Hc He]. simpl in *.
    exists (str_int (position c names)), (str_int (position e names)).
    split; [|split].
    + apply elem_of_map. by exists (c, e).
    + apply elem_of_number_nodes. eexists. split; [done|].
      by apply listed_position.
    + apply elem_of_number_nodes. eexists. split; [done|].
      by apply listed_position.
Qed.
End listing.

Lemma create_and_view_graph_spec self names :
  lists_set names (ViewCallGraph.function_names self) →
  frames_known (ViewCallGraph.stacks self) (ViewCallGraph.function_names self) →
  ViewCallGraph.create_and_view_graph self names =
  Ok {| ViewCallGraph.nodes := ViewCallGraph.number_nodes names;
        ViewCallGraph.edges := id_edges names (ViewCallGraph.stacks self) |}.
Proof.
  intros [_ Hin] Hk. unfold ViewCallGraph.create_and_view_graph.
  rewrite add_edges_spec by (intros; eapply Hin, Hk; done).
  cbn [bind]. do 2 f_equal. unfold id_edges. set_solver.
Qed.

Lemma add_edges_app names s1 s2 E :
  ViewCallGraph.add_edges names (s1 ++ s2) E =
  bind (ViewCallGraph.add_edges names s1 E) (ViewCallGraph.add_edges names s2).
Proof.
  revert E. induction s1 as [|stack s1 IH]; intros E; [done|].
  cbn [app ViewCallGraph.add_edges].
  destruct (ViewCallGraph.add_stack_edges _ _ _ _); [|done]. cbn [bind]. apply IH.
Qed.

Lemma bind_Ok {A : Type} (r : result A) : bind r Ok = r.
Proof. by destruct r. Qed.

End GraphFacts.

(** * Facts about the interactive script *)

Module InteractiveFacts.
Import Py Ref ListFacts CaptureFacts GraphFacts Normalizer Interactive.

Lemma istop_function_names self hit :
  function_names (stop self hit) =
  function_names self ∪ list_to_set (tidy <$> hit.1).
Proof. unfold stop. by rewrite walk_spec. Qed.

Lemma istop_stacks self hit :
  (stacks_and_locals (stop self hit)).*1 =
  (stacks_and_locals self).*1 ++ [tidy <$> hit.1].
Proof. unfold stop. rewrite walk_spec. simpl. by rewrite fmap_app. Qed.

Lemma ifoldl_stop_known hits self :
  frames_known (stacks_and_locals self).*1 (function_names self) →
  frames_known (stacks_and_locals (foldl stop self hits)).*1
    (function_names (foldl stop self hits)).
Proof.
  revert self. induction hits as [|hit hits IH]; intros self H; [done|].
  simpl. apply IH. rewrite istop_function_names, istop_stacks.
  eapply frames_known_snoc; [done|set_solver|]. set_solver.
Qed.

Lemma isession_known hits :
  frames_known (stacks_and_locals (session hits)).*1
    (function_names (session hits)).
Proof. apply ifoldl_stop_known. intros ?? []%elem_of_nil. Qed.

Lemma ifoldl_stop_stacks hits self :
  (stacks_and_locals (foldl stop self hits)).*1 =
  (stacks_and_locals self).*1 ++ (fmap (M:=list) tidy <$> hits.*1).
Proof.
  revert self. induction hits as [|hit hits IH]; intros self; simpl.
  - by rewrite app_nil_r.
  - by rewrite IH, istop_stacks, <- app_assoc.
Qed.

Lemma ifoldl_stop_function_names hits self :
  function_names (foldl stop self hits) =
  function_names self ∪ list_to_set (concat (fmap (M:=list) tidy <$> hits.*1)).
Proof.
  revert self. induction hits as [|hit hits IH]; intros self; simpl.
  - set_solver.
  - rewrite IH, istop_function_names, list_to_set_app_L. set_solver.
Qed.

(** Both scripts record the same stacks and names for the same hits. *)
Lemma session_stacks_agree hits :
  (stacks_and_locals (session hits)).*1 =
  ViewCallGraph.stacks (ViewCallGraph.session hits.*1).
Proof.
  unfold session. by rewrite ifoldl_stop_stacks, ViewFacts.session_stacks.
Qed.

Lemma session_names_agree hits :
  function_names (session hits) =
  ViewCallGraph.function_names (ViewCallGraph.session hits.*1).
Proof.
  unfold session.
  rewrite ifoldl_stop_function_names, ViewFacts.session_function_names.
  set_solver.
Qed.

Lemma iadd_stack_edges_run names stack color n k E :
  (∀ f, f ∈ stack → f ∈ names) →
  k + n ≤ length (adjacencies stack) →
  add_stack_edges names stack color (seq k n) E =
  Ok (E ∪ list_to_set
            (paint color <$>
               (edge_of names <$> take n (drop k (adjacencies stack))))).
Proof.
  intros Hin. revert k E. induction n as [|n IH]; intros k E Hlen.
  - simpl. f_equal. set_solver.
  - destruct (lookup_lt_is_Some_2 (adjacencies stack) k) as [[c e] Hk]; [lia|].
    pose proof Hk as [Hc He]%adjacencies_lookup.
    cbn [seq add_stack_edges]. unfold getitem. rewrite Hc, He. cbn [bind].
    rewrite !list_index_position
      by (apply Hin; by eapply list_elem_of_lookup_2).
    cbn [bind]. rewrite IH by lia.
    rewrite (drop_S _ _ _ Hk). cbn [take fmap list_fmap].
    rewrite list_to_set_cons. f_equal. symmetry. apply (assoc_L (∪)).
Qed.

Lemma iadd_stack_edges_spec names stack color E :
  (∀ f, f ∈ stack → f ∈ names) →
  add_stack_edges names stack color (range_len_pred stack) E =
  Ok (E ∪ set_map (paint color) (id_edges names [stack])).
Proof.
  intros Hin. unfold range_len_pred. rewrite <- adjacencies_length.
  rewrite iadd_stack_edges_run by (done || lia).
  rewrite drop_0, firstn_all. f_equal. f_equal.
  unfold id_edges, observed. cbn [mbind list_bind]. rewrite app_nil_r.
  by rewrite <- !list_to_set_fmap_L.
Qed.

Lemma iadd_edges_spec names selected sl stack_index E :
  (∀ stack f, stack ∈ sl.*1 → f ∈ stack → f ∈ names) →
  add_edges names selected stack_index sl E =
  Ok (E ∪ colored names selected stack_index sl.*1).
Proof.
  revert stack_index E.
  induction sl as [|[stack loc] sl IH]; intros idx E Hin.
  - simpl. f_equal. set_solver.
  - cbn [add_edges colored fmap list_fmap fst].
    rewrite iadd_stack_edges_spec
      by (intros; eapply Hin; [apply list_elem_of_here|done]).
    cbn [bind].
    rewrite IH by (intros; eapply Hin; [by apply list_elem_of_further|done]).
    f_equal. by rewrite (assoc_L (∪)).
Qed.

Lemma icreate_and_view_graph_spec self names selected :
  lists_set names (function_names self) →
  frames_known (stacks_and_locals self).*1 (function_names self) →
  create_and_view_graph self names selected =
  Ok {| nodes := ViewCallGraph.number_nodes names;
        edges := colored names selected 0 (stacks_and_locals self).*1 |}.
Proof.
  intros [_ Hin] Hk. unfold create_and_view_graph.
  rewrite iadd_edges_spec by (intros; eapply Hin, Hk; done).
  cbn [bind]. do 2 f_equal. by rewrite (left_id_L ∅ (∪)).
Qed.

Lemma color_of_other i k : i ≠ k → color_of i (Some k) = "black".
Proof.
  intros H. unfold color_of, is_selected.
  rewrite bool_decide_eq_false_2; [done|]. intros [[=] _]. done.
Qed.

Lemma color_of_same k : k ≤ 256 → color_of k (Some k) = "red".
Proof.
  intros H. unfold color_of, is_selected. by rewrite bool_decide_eq_true_2.
Qed.

(** Above 256 the selected int is identical to no counter. *)
Lemma color_of_large i k : 256 < k → color_of i (Some k) = "black".
Proof.
  intros H. unfold color_of, is_selected.
  rewrite bool_decide_eq_false_2; [done|]. intros [[= ->] ?]. lia.
Qed.

Lemma paint_id_edges_nil (names : list string) (color : string) :
  set_map (D:=gset (string * string * string)) (paint color)
    (id_edges names []) = ∅.
Proof. unfold id_edges. rewrite observed_nil. set_solver. Qed.

Lemma colored_none names stack_index stacks :
  colored names None stack_index stacks =
  set_map (paint "black") (id_edges names stacks).
Proof.
  revert stack_index. induction stacks as [|stack stacks IH]; intros idx.
  - by rewrite paint_id_edges_nil.
  - cbn [colored]. rewrite IH, (id_edges_cons names stack stacks).
    by rewrite set_map_union_L.
Qed.

Lemma colored_unselected names k stack_index stacks :
  (k < stack_index ∨ stack_index + length stacks ≤ k) →
  colored names (Some k) stack_index stacks =
  set_map (paint "black") (id_edges names stacks).
Proof.
  revert stack_index. induction stacks as [|stack stacks IH]; intros idx Hk.
  - by rewrite paint_id_edges_nil.
  - cbn [colored]. simpl in Hk. rewrite color_of_other by lia.
    rewrite IH by lia. rewrite (id_edges_cons names stack stacks).
    by rewrite set_map_union_L.
Qed.

Lemma colored_large names k stack_index stacks :
  256 < k →
  colored names (Some k) stack_index stacks =
  set_map (paint "black") (id_edges names stacks).
Proof.
  intros Hk. revert stack_index.
  induction stacks as [|stack stacks IH]; intros idx.
  - by rewrite paint_id_edges_nil.
  - cbn [colored]. rewrite color_of_large by done.
    rewrite IH. rewrite (id_edges_cons names stack stacks).
    by rewrite set_map_union_L.
Qed.

Lemma colored_selected names k stack_index stacks stack :
  k ≤ 256 →
  stack_index ≤ k → stacks !! (k - stack_index) = Some stack →
  colored names (Some k) stack_index stacks =
  set_map (paint "red") (id_edges names [stack])
  ∪ set_map (paint "black") (id_edges names (delete (k - stack_index) stacks)).
Proof.
  intros Hsmall. revert stack_index.
  induction stacks as [|s stacks IH]; intros idx Hle Hk; [done|].
  cbn [colored]. destruct (decide (idx = k)) as [->|Hne].
  - rewrite Nat.sub_diag in *. simpl in Hk. injection Hk as ->.
    rewrite color_of_same by done. cbn [delete list_delete].
    by rewrite colored_unselected by lia.
  - replace (k - idx) with (S (k - S idx)) in * by lia. simpl in Hk.
    rewrite color_of_other by done. rewrite (IH (S idx)) by (lia || done).
    cbn [delete list_delete].
    rewrite (id_edges_cons names s (delete _ stacks)), set_map_union_L.
    set_solver.
Qed.

Global Instance paint_inj color : Inj (=) (=) (paint color).
Proof. intros [a b] [a' b'] [= -> ->]. done. Qed.

Lemma paint_size (color : string) (X : gset (string * string)) :
  size (set_map (D:=gset (string * string * string)) (paint color) X) = size X.
Proof. apply size_set_map_inj. intros ?? _ _. apply (inj _). Qed.

Lemma elem_of_paint (color : string) (X : gset (string * string)) a b col :
  (a, b, col) ∈ set_map (D:=gset (string * string * string)) (paint color) X ↔
  col = color ∧ (a, b) ∈ X.
Proof.
  rewrite elem_of_map. split.
  - intros ([a' b'] & [= -> -> ->] & H). done.
  - intros [-> H]. by exists (a, b).
Qed.

Lemma red_black_size (R B : gset (string * string)) :
  size (set_map (D:=gset (string * string * string)) (paint "red") R
        ∪ set_map (paint "black") B) = size R + size B.
Proof.
  rewrite size_union, !paint_size; [done|].
  intros [[a b] col] [? _]%elem_of_paint [? _]%elem_of_paint. by subst.
Qed.

End InteractiveFacts.

(** * Unit checks of [tidy] *)

Module NormalizerTests.
Import PyStr Normalizer.

Example tidy_plain : tidy "main" = "main".
Proof. reflexivity. Qed.

Example tidy_nested : tidy "a(b(c)d)e" = "ace".
Proof. reflexivity. Qed.

Example split_two_open : re_split_parens "((" = [""; ""; ""].
Proof. reflexivity. Qed.

Example tidy_anonymous : tidy "(anonymous namespace)::run(int)" = "run".
Proof. reflexivity. Qed.

Example replace_not_rescanned :
  replace_with_empty "std::" "ststd::d::x" = "std::x".
Proof. reflexivity. Qed.

End NormalizerTests.

(** * Properties *)

Import PyStr Py Ref Normalizer.
Import StrFacts TidyFacts ListFacts CaptureFacts ViewFacts GraphFacts InteractiveFacts.

Lemma lists_set_check (l : list string) (s : gset string) :
  bool_decide (NoDup l) = true → s = list_to_set l → lists_set l s.
Proof. intros H%bool_decide_eq_true. by apply lists_set_of_list. Qed.

(** A concrete list lists a concrete set: by evaluation. *)
Ltac listing := apply lists_set_check; vm_compute; reflexivity.

Lemma id_edges_repeat names stacks stack :
  stack ∈ stacks → id_edges names (stacks ++ [stack]) = id_edges names stacks.
Proof.
  intros Hin. unfold id_edges. f_equal. rewrite observed_app.
  apply set_eq. intros [c e]. rewrite elem_of_union, !elem_of_observed.
  split; [|by left]. intros [H|(s & ->%list_elem_of_singleton & H)]; eauto.
Qed.

(** C1 (amended).  For the same breakpoint hits and any listing [names] of the
    function-name set, both scripts build a graph.  [python/view_call_graph.py]
    always, and the interactive script when no stack is selected or the
    selected index is no captured stack, put exactly one edge per distinct
    (caller, callee) pair of adjacent frames; the node labels carry no
    duplicate; hitting a stack already captured changes neither the name set
    nor the graph.  When a captured stack [k] with [k <= 256] is selected, the
    edges are (caller, callee, colour) triples and their number is the number
    of distinct pairs of stack [k] plus the number of distinct pairs of the
    other stacks, a pair occurring on both sides being counted on both. *)
Theorem edge_count_distinct_pairs
    (hits : list (list string * list (string * string)))
    (names : list string) :
  lists_set names (Interactive.function_names (Interactive.session hits)) →
  ∃ g gi,
    ViewCallGraph.create_and_view_graph
      (ViewCallGraph.session hits.*1) names = Ok g ∧
    Interactive.create_and_view_graph
      (Interactive.session hits) names None = Ok gi ∧
    size (ViewCallGraph.edges g)
      = size (observed (ViewCallGraph.stacks (ViewCallGraph.session hits.*1))) ∧
    size (Interactive.edges gi)
      = size (observed (ViewCallGraph.stacks (ViewCallGraph.session hits.*1))) ∧
    NoDup (ViewCallGraph.nodes g).*2 ∧
    length (ViewCallGraph.nodes g)
      = size (ViewCallGraph.function_names (ViewCallGraph.session hits.*1)) ∧
    (∀ hit, hit.1 ∈ hits.*1 →
       Interactive.function_names (Interactive.session (hits ++ [hit]))
         = Interactive.function_names (Interactive.session hits) ∧
       ViewCallGraph.create_and_view_graph
         (ViewCallGraph.session (hits ++ [hit]).*1) names = Ok g ∧
       Interactive.create_and_view_graph
         (Interactive.session (hits ++ [hit])) names None = Ok gi) ∧
    (∀ k, length hits ≤ k →
       Interactive.create_and_view_graph
         (Interactive.session hits) names (Some k) = Ok gi) ∧
    (∀ k stack,
       k ≤ 256 →
       ViewCallGraph.stacks (ViewCallGraph.session hits.*1) !! k = Some stack →
       ∃ gk,
         Interactive.create_and_view_graph
           (Interactive.session hits) names (Some k) = Ok gk ∧
         size (Interactive.edges gk)
           = size (observed [stack])
             + size (observed
                       (delete k (ViewCallGraph.stacks
                                    (ViewCallGraph.session hits.*1))))).
Proof.
  intros Hls.
  pose proof (isession_known hits) as Hk.
  pose proof Hls as Hls'. rewrite session_names_agree in Hls'.
  pose proof (ViewFacts.session_known hits.*1) as Hk'.
  pose proof Hls' as [Hnd Hin].
  eexists _, _.
  split; [by apply create_and_view_graph_spec|].
  split; [by apply icreate_and_view_graph_spec|].
  cbn [ViewCallGraph.edges ViewCallGraph.nodes Interactive.edges].
  rewrite colored_none, paint_size, session_stacks_agree.
  rewrite (id_edges_size names _ Hls' _ Hk').
  rewrite number_nodes_labels. unfold ViewCallGraph.number_nodes at 1.
  rewrite length_imap, (lists_set_length names _ Hls').
  do 4 (split; [done|]). split; [|split].
  - intros hit Hhit.
    assert (Hst : (tidy <$> hit.1)
              ∈ ViewCallGraph.stacks (ViewCallGraph.session hits.*1)).
    { rewrite ViewFacts.session_stacks. by apply list_elem_of_fmap_2. }
    assert (Hfn : Interactive.function_names (Interactive.session (hits ++ [hit]))
              = Interactive.function_names (Interactive.session hits)).
    { unfold Interactive.session. rewrite foldl_app. cbn [foldl].
      rewrite istop_function_names. fold (Interactive.session hits).
      apply set_eq. intros f. rewrite elem_of_union, elem_of_list_to_set.
      split; [|by left]. intros [?|Hf]; [done|].
      rewrite session_names_agree. by eapply Hk'. }
    assert (Hstk : ViewCallGraph.stacks (ViewCallGraph.session (hits ++ [hit]).*1)
              = ViewCallGraph.stacks (ViewCallGraph.session hits.*1)
                ++ [tidy <$> hit.1]).
    { by rewrite !ViewFacts.session_stacks, !fmap_app. }
    split; [done|]. split.
    + rewrite create_and_view_graph_spec.
      * by rewrite Hstk, id_edges_repeat.
      * by rewrite <- session_names_agree, Hfn.
      * apply ViewFacts.session_known.
    + rewrite icreate_and_view_graph_spec.
      * rewrite colored_none, !session_stacks_agree, Hstk.
        by rewrite id_edges_repeat.
      * by rewrite Hfn.
      * apply isession_known.
  - intros k Hlen. rewrite icreate_and_view_graph_spec by done.
    rewrite session_stacks_agree, colored_unselected; [done|]. right.
    rewrite ViewFacts.session_stacks, !length_fmap. lia.
  - intros k stack Hk256 Hstack. eexists.
    split; [by apply icreate_and_view_graph_spec|].
    cbn [Interactive.edges]. rewrite session_stacks_agree.
    rewrite (colored_selected names k 0 _ stack)
      by (lia || by rewrite Nat.sub_0_r).
    rewrite Nat.sub_0_r, red_black_size.
    rewrite !(id_edges_size names _ Hls'); [done| |].
    + intros s f Hs%list_elem_of_delete_inv. by apply Hk'.
    + intros s f ->%list_elem_of_singleton. apply Hk'.
      by eapply list_elem_of_lookup_2.
Qed.

Lemma edge_count_distinct_pairs_witness :
  lists_set ["C"; "B"]
    (Interactive.function_names
       (Interactive.session [(["C"; "B"], []); (["C"; "B"], [])])) ∧
  ∃ g gi,
    ViewCallGraph.create_and_view_graph
      (ViewCallGraph.session [["C"; "B"]; ["C"; "B"]]) ["C"; "B"] = Ok g ∧
    Interactive.create_and_view_graph
      (Interactive.session [(["C"; "B"], []); (["C"; "B"], [])])
      ["C"; "B"] None = Ok gi ∧
    size (ViewCallGraph.edges g) = 1 ∧ size (Interactive.edges gi) = 1.
Proof.
  assert (H : lists_set ["C"; "B"]
    (Interactive.function_names
       (Interactive.session [(["C"; "B"], []); (["C"; "B"], [])])))
    by listing.
  split; [exact H|].
  destruct (edge_count_distinct_pairs _ _ H)
    as (g & gi & Hg & Hgi & Hs & Hsi & _).
  exists g, gi. split; [exact Hg|]. split; [exact Hgi|].
  split; [exact Hs | exact Hsi].
Defined.

(** C1, as stated, fails: with a stack selected, a pair seen both in that
    stack and in another one is in [self.edges] twice, once red, once black. *)
Lemma selected_stack_doubles_shared_edge :
  lists_set ["C"; "B"] (Interactive.function_names Examples.twice) ∧
  size (observed (Interactive.stacks_and_locals Examples.twice).*1) = 1 ∧
  ∃ g, Interactive.create_and_view_graph Examples.twice ["C"; "B"] (Some 0)
         = Ok g ∧
       Interactive.edges g = {[ ("1", "0", "red"); ("1", "0", "black") ]} ∧
       size (Interactive.edges g) = 2.
Proof.
  split; [listing|].
  split; [vm_compute; reflexivity|].
  eexists. split; [vm_compute; reflexivity|]. split; vm_compute; reflexivity.
Qed.

(** C2 (amended).  For any listing [names] of the function-name set, the
    numbering used by [create_and_view_graph] pairs the numbers below the size
    of the set one-to-one with the names of the set: node [str(i)] is labelled
    with the name at position [i], every name of the set has a position and
    only one, and [names.index(f)], which numbers the edge ends, returns that
    same position. *)
Theorem node_ids_bijective (self : ViewCallGraph.breakpoint)
    (names : list string) :
  lists_set names (ViewCallGraph.function_names self) →
  (∀ a f, (a, f) ∈ ViewCallGraph.number_nodes names ↔
          ∃ i, a = str_int i ∧ names !! i = Some f) ∧
  (∀ f, f ∈ ViewCallGraph.function_names self ↔ ∃ i, names !! i = Some f) ∧
  (∀ i j f, names !! i = Some f → names !! j = Some f → i = j) ∧
  (∀ i, i < size (ViewCallGraph.function_names self) ↔ is_Some (names !! i)) ∧
  (∀ f i, list_index f names = Ok i ↔ names !! i = Some f).
Proof.
  intros [Hnd Hin]. split; [apply elem_of_number_nodes|].
  split; [intros f; by rewrite <- Hin, list_elem_of_lookup|].
  split; [intros i j f; by apply NoDup_lookup|].
  split.
  - intros i. rewrite <- (lists_set_length names _ (conj Hnd Hin)).
    symmetry. apply lookup_lt_is_Some.
  - intros f i. split.
    + intros Hi. destruct (decide (f ∈ names)) as [Hf|Hf].
      * rewrite list_index_position in Hi by done. injection Hi as <-.
        by apply position_lookup.
      * by rewrite list_index_absent in Hi.
    + intros Hi. rewrite list_index_position
        by (by eapply list_elem_of_lookup_2).
      f_equal. by apply position_NoDup.
Qed.

Lemma node_ids_bijective_witness :
  lists_set ["B"; "A"]
    (ViewCallGraph.function_names (ViewCallGraph.session [["A"]; ["B"]])) ∧
  ∀ f i, list_index f ["B"; "A"] = Ok i ↔ ["B"; "A"] !! i = Some f.
Proof.
  assert (H : lists_set ["B"; "A"]
    (ViewCallGraph.function_names (ViewCallGraph.session [["A"]; ["B"]])))
    by listing.
  split; [exact H|].
  exact (proj2 (proj2 (proj2 (proj2 (node_ids_bijective _ _ H))))).
Defined.

(** C2, as stated, fails: the numbering follows the order in which the set
    is listed, which need not be the order of first appearance, and it is
    recomputed at each call, so a number can name another function after a
    later capture. *)
Lemma node_ids_not_first_seen :
  ¬ (∀ hits names,
       lists_set names
         (ViewCallGraph.function_names (ViewCallGraph.session hits)) →
       names = first_seen (ViewCallGraph.stacks (ViewCallGraph.session hits)))
  ∧
  ¬ (∀ hits hit names names' i f,
       lists_set names
         (ViewCallGraph.function_names (ViewCallGraph.session hits)) →
       lists_set names'
         (ViewCallGraph.function_names
            (ViewCallGraph.session (hits ++ [hit]))) →
       (str_int i, f) ∈ ViewCallGraph.number_nodes names →
       (str_int i, f) ∈ ViewCallGraph.number_nodes names').
Proof.
  split.
  - intros H. specialize (H [["A"]; ["B"]] ["B"; "A"]).
    assert (["B"; "A"] = ["A"; "B"]) as [=].
    apply H. listing.
  - intros H. specialize (H [["A"]] ["B"] ["A"] ["B"; "A"] 0 "A").
    assert (Hin : (str_int 0, "A") ∈ ViewCallGraph.number_nodes ["B"; "A"]).
    { apply H; [listing..|].
      vm_compute. apply list_elem_of_here. }
    apply elem_of_number_nodes in Hin as (i & <-%(inj pretty) & [=]).
Qed.

(** C3 (amended).  Selecting an index that is no captured stack raises
    nothing: [create_and_view_graph] returns the same graph as with no
    selection, and every edge in it is black. *)
Theorem out_of_range_selection_highlights_nothing
    (hits : list (list string * list (string * string)))
    (names : list string) (k : nat) :
  lists_set names (Interactive.function_names (Interactive.session hits)) →
  length hits ≤ k →
  ∃ g,
    Interactive.create_and_view_graph (Interactive.session hits) names (Some k)
      = Ok g ∧
    Interactive.create_and_view_graph (Interactive.session hits) names None
      = Ok g ∧
    ∀ a b color, (a, b, color) ∈ Interactive.edges g → color = "black".
Proof.
  intros Hls Hk. pose proof (isession_known hits) as Hkn.
  eexists. split; [by apply icreate_and_view_graph_spec|].
  assert (Hlen : length (Interactive.stacks_and_locals
                           (Interactive.session hits)).*1 = length hits).
  { by rewrite session_stacks_agree, ViewFacts.session_stacks, !length_fmap. }
  rewrite colored_unselected by (right; lia). split.
  - rewrite icreate_and_view_graph_spec by done. by rewrite colored_none.
  - cbn [Interactive.edges]. by intros a b color [-> _]%elem_of_paint.
Qed.

Lemma out_of_range_selection_witness :
  ∃ g,
    Interactive.create_and_view_graph Examples.three ["A"; "B"; "C"; "D"]
      (Some 99) = Ok g ∧
    Interactive.create_and_view_graph Examples.three ["A"; "B"; "C"; "D"]
      None = Ok g ∧
    ∀ a b color, (a, b, color) ∈ Interactive.edges g → color = "black".
Proof.
  apply (out_of_range_selection_highlights_nothing
           [(["C"; "B"; "A"], []); (["C"; "D"; "A"], []); (["C"; "B"; "A"], [])]
           ["A"; "B"; "C"; "D"] 99).
  - listing.
  - vm_compute. lia.
Defined.

(** C3, as stated, fails: index 99 with three captured stacks raises
    nothing. *)
Lemma selecting_99_of_3_returns :
  length (Interactive.stacks_and_locals Examples.three) = 3 ∧
  lists_set ["A"; "B"; "C"; "D"] (Interactive.function_names Examples.three) ∧
  raises (Interactive.create_and_view_graph Examples.three
            ["A"; "B"; "C"; "D"] (Some 99)) = false.
Proof.
  split; [reflexivity|].
  split; [listing|].
  vm_compute. reflexivity.
Qed.

(** C4.  Capturing the same hits in another order gives the same set of
    function names and the same set of (caller, callee) pairs; whatever
    listing of the name set each run uses, the two graphs have the same node
    labels and draw an edge between the same labelled nodes, and with the same
    listing they are the same graph, identifiers included. *)
Theorem aggregation_order_independent
    (hits hits' : list (list string)) (names names' : list string) :
  hits ≡ₚ hits' →
  lists_set names
    (ViewCallGraph.function_names (ViewCallGraph.session hits)) →
  lists_set names'
    (ViewCallGraph.function_names (ViewCallGraph.session hits')) →
  ViewCallGraph.function_names (ViewCallGraph.session hits)
    = ViewCallGraph.function_names (ViewCallGraph.session hits') ∧
  observed (ViewCallGraph.stacks (ViewCallGraph.session hits))
    = observed (ViewCallGraph.stacks (ViewCallGraph.session hits')) ∧
  ∃ g g',
    ViewCallGraph.create_and_view_graph (ViewCallGraph.session hits) names
      = Ok g ∧
    ViewCallGraph.create_and_view_graph (ViewCallGraph.session hits') names'
      = Ok g' ∧
    (∀ f, f ∈ (ViewCallGraph.nodes g).*2 ↔ f ∈ (ViewCallGraph.nodes g').*2) ∧
    (∀ caller callee, draws g caller callee ↔ draws g' caller callee) ∧
    (names = names' → g = g').
Proof.
  intros Hp Hls Hls'.
  assert (Hst : ViewCallGraph.stacks (ViewCallGraph.session hits)
            ≡ₚ ViewCallGraph.stacks (ViewCallGraph.session hits')).
  { rewrite !ViewFacts.session_stacks. by rewrite Hp. }
  assert (Hfn : ViewCallGraph.function_names (ViewCallGraph.session hits)
            = ViewCallGraph.function_names (ViewCallGraph.session hits')).
  { rewrite !ViewFacts.session_function_names. by rewrite Hp. }
  pose proof (observed_perm _ _ Hst) as Hobs.
  split; [done|]. split; [done|].
  pose proof (ViewFacts.session_known hits) as Hk.
  pose proof (ViewFacts.session_known hits') as Hk'.
  eexists _, _.
  split; [by apply create_and_view_graph_spec|].
  split; [by apply create_and_view_graph_spec|].
  split; [|split].
  - intros f. cbn [ViewCallGraph.nodes]. rewrite !number_nodes_labels.
    destruct Hls as [_ ->], Hls' as [_ ->]. by rewrite Hfn.
  - intros c e. rewrite (draws_observed _ _ Hls _ c e Hk).
    rewrite (draws_observed _ _ Hls' _ c e Hk'). by rewrite Hobs.
  - intros <-. f_equal. unfold id_edges. by rewrite Hobs.
Qed.

Lemma aggregation_order_independent_witness :
  ViewCallGraph.function_names
    (ViewCallGraph.session [["C"; "B"; "A"]; ["C"; "D"; "A"]])
  = ViewCallGraph.function_names
      (ViewCallGraph.session [["C"; "D"; "A"]; ["C"; "B"; "A"]]) ∧
  ∃ g g',
    ViewCallGraph.create_and_view_graph
      (ViewCallGraph.session [["C"; "B"; "A"]; ["C"; "D"; "A"]])
      ["C"; "B"; "A"; "D"] = Ok g ∧
    ViewCallGraph.create_and_view_graph
      (ViewCallGraph.session [["C"; "D"; "A"]; ["C"; "B"; "A"]])
      ["C"; "D"; "A"; "B"] = Ok g' ∧
    ∀ caller callee, draws g caller callee ↔ draws g' caller callee.
Proof.
  destruct (aggregation_order_independent
              [["C"; "B"; "A"]; ["C"; "D"; "A"]]
              [["C"; "D"; "A"]; ["C"; "B"; "A"]]
              ["C"; "B"; "A"; "D"] ["C"; "D"; "A"; "B"])
    as (Hfn & _ & g & g' & Hg & Hg' & _ & Hd & _).
  - apply perm_swap.
  - listing.
  - listing.
  - split; [exact Hfn|]. exists g, g'. split; [exact Hg|].
    split; [exact Hg'|exact Hd].
Defined.

(** C5 (amended).  [tidy] applied twice gives the same as [tidy] applied once
    exactly when the once-tidied name is settled: it contains none of
    ["arrow::"], ["engine::"], ["std::"], and if it starts with the family
    prefix it is the family prefix. *)
Theorem tidy_idempotent_iff_settled (r : string) :
  tidy (tidy r) = tidy r ↔ settled (tidy r) = true.
Proof.
  split.
  - apply fixed_settled, tidy_paren_free.
  - apply settled_fixed, tidy_paren_free.
Qed.

Lemma tidy_idempotent_iff_settled_witness :
  tidy (tidy "arrow::engine::Foo(int)") = tidy "arrow::engine::Foo(int)".
Proof.
  apply (proj2 (tidy_idempotent_iff_settled "arrow::engine::Foo(int)")).
  vm_compute. reflexivity.
Defined.

(** C5, as stated, fails: dropping the parenthesised group of
    ["std(x)::foo"] leaves ["std::foo"], which a second pass shortens to
    ["foo"]. *)
Lemma tidy_not_idempotent :
  tidy "std(x)::foo" = "std::foo" ∧ tidy (tidy "std(x)::foo") = "foo" ∧
  tidy (tidy "std(x)::foo") ≠ tidy "std(x)::foo".
Proof. split; [reflexivity|]. split; [reflexivity|]. vm_compute. discriminate. Qed.

(** C7 (amended).  [tidy] is a total function: it raises on no name.  On a
    name without parentheses the parenthesis step strips nothing.  On a name
    with parentheses, balanced or not, it keeps the text before the first
    parenthesis, drops the text between the first and the second whatever
    their kinds, and goes on after the second; a parenthesis with no second
    one after it is removed with everything after it. *)
Theorem parenthesis_step_equations (a b rest : string) (c d : ascii) :
  paren_free a = true → paren_free b = true →
  is_paren c = true → is_paren d = true →
  tidy a = collapse_family (strip_namespaces a) ∧
  strip_groups a = a ∧
  strip_groups (a +:+ String c b) = a ∧
  strip_groups (a +:+ String c (b +:+ String d rest)) = a +:+ strip_groups rest.
Proof.
  intros Ha Hb Hc Hd. split; [by apply tidy_without_parens|].
  split; [by apply strip_groups_paren_free|].
  split; [by apply strip_groups_lone_paren|].
  unfold strip_groups. rewrite !re_split_parens_app by done.
  cbn [slice_step2]. by rewrite join_empty_cons.
Qed.

Lemma parenthesis_step_equations_witness :
  tidy "foo" = collapse_family (strip_namespaces "foo") ∧
  strip_groups "foo" = "foo" ∧
  strip_groups ("foo" +:+ String "(" "bar") = "foo" ∧
  strip_groups ("foo" +:+ String "(" ("bar" +:+ String "(" "baz)"))
    = "foo" +:+ strip_groups "baz)".
Proof.
  apply (parenthesis_step_equations "foo" "bar" "baz)" "(" "(");
    vm_compute; reflexivity.
Defined.

(** C7, as stated, fails: ["foo(bar"] has an unmatched parenthesis and loses
    ["(bar"]. *)
Lemma unbalanced_name_is_stripped :
  balanced "foo(bar" = false ∧ tidy "foo(bar" = "foo" ∧
  ¬ (∀ r, balanced r = false ∨ paren_free r = true →
          tidy r = collapse_family (strip_namespaces r)).
Proof.
  split; [reflexivity|]. split; [reflexivity|].
  intros H. specialize (H "foo(bar" (or_introl eq_refl)).
  vm_compute in H. discriminate.
Qed.

(** C8.  [tidy "arrow::engine::Foo(int)"] is ["Foo"]; the family prefix is
    ["CheckNotYetImplementedTestCase"], [tidy] maps
    ["CheckNotYetImplementedTestCase<Bar,Baz>(x)"] to it, and so it does with
    every name that starts with it once the namespaces are removed. *)
Theorem tidy_strips_prefixes_and_groups :
  tidy "arrow::engine::Foo(int)" = "Foo" ∧
  family = "CheckNotYetImplementedTestCase" ∧
  tidy "CheckNotYetImplementedTestCase<Bar,Baz>(x)"
    = "CheckNotYetImplementedTestCase" ∧
  ∀ r, startswith (strip_namespaces r) family = true → tidy r = family.
Proof.
  split; [reflexivity|]. split; [reflexivity|]. split; [reflexivity|].
  intros r Hr. unfold tidy, collapse_family. by rewrite Hr.
Qed.

(** C6.  The red edges when the selected stack is [[f0; f1; f2]] (innermost
    first), by the selected index [k].  For [k <= 256] they are exactly
    [(id f1, id f0)] and [(id f2, id f1)], caller first, where [id f] is the
    number of the node labelled [f].  For [k > 256] the comparison of line 77,
    an [is], holds for no stack: no edge is red and the two pairs of the
    selected stack are drawn black. *)
Theorem highlight_three_frames_by_index
    (hits : list (list string * list (string * string)))
    (names : list string) (k : nat) (f0 f1 f2 : string) :
  lists_set names (Interactive.function_names (Interactive.session hits)) →
  (Interactive.stacks_and_locals (Interactive.session hits)).*1 !! k
    = Some [f0; f1; f2] →
  ∃ g,
    Interactive.create_and_view_graph (Interactive.session hits) names (Some k)
      = Ok g ∧
    (k ≤ 256 →
     ∀ a b, (a, b, "red") ∈ Interactive.edges g ↔
            (a, b) = (str_int (position f1 names), str_int (position f0 names))
            ∨ (a, b) = (str_int (position f2 names), str_int (position f1 names)))
    ∧ (256 < k →
       (∀ a b, (a, b, "red") ∉ Interactive.edges g)
       ∧ (str_int (position f1 names), str_int (position f0 names), "black")
           ∈ Interactive.edges g
       ∧ (str_int (position f2 names), str_int (position f1 names), "black")
           ∈ Interactive.edges g)
    ∧ (str_int (position f0 names), f0) ∈ Interactive.nodes g
    ∧ (str_int (position f1 names), f1) ∈ Interactive.nodes g
    ∧ (str_int (position f2 names), f2) ∈ Interactive.nodes g.
Proof.
  intros Hls Hstack. pose proof (isession_known hits) as Hkn.
  eexists. split; [by apply icreate_and_view_graph_spec|].
  cbn [Interactive.edges Interactive.nodes]. split; [|split].
  - intros Hsmall a b.
    rewrite (colored_selected names k 0 _ [f0; f1; f2])
      by (done || lia || by rewrite Nat.sub_0_r).
    rewrite elem_of_union, !elem_of_paint. unfold id_edges at 1.
    rewrite elem_of_map. split.
    + intros [[_ ([c e] & -> & Hp)]|[[=] _]].
      apply elem_of_observed in Hp as (s & ->%list_elem_of_singleton & Hp).
      cbn in Hp. apply elem_of_cons in Hp as [[= -> ->]|Hp]; [by left|].
      apply list_elem_of_singleton in Hp as [= -> ->]. by right.
    + intros H. left. split; [done|].
      destruct H as [->| ->]; [exists (f1, f0)|exists (f2, f1)];
        (split; [done|]); apply elem_of_observed; exists [f0; f1; f2];
        (split; [by apply list_elem_of_singleton|]); cbn.
      * apply list_elem_of_here.
      * apply list_elem_of_further, list_elem_of_here.
  - intros Hlarge. rewrite colored_large by done.
    split; [intros a b [[=] _]%elem_of_paint|].
    assert (Hp : ∀ c e, (c, e) ∈ adjacencies [f0; f1; f2] →
              (str_int (position c names), str_int (position e names), "black")
                ∈ set_map (D:=gset (string * string * string)) (paint "black")
                    (id_edges names
                       (Interactive.stacks_and_locals
                          (Interactive.session hits)).*1)).
    { intros c e Hce. apply elem_of_paint. split; [done|].
      unfold id_edges. apply elem_of_map. exists (c, e). split; [done|].
      apply elem_of_observed. exists [f0; f1; f2].
      split; [by eapply list_elem_of_lookup_2 | done]. }
    split; apply Hp; cbn.
    + apply list_elem_of_here.
    + apply list_elem_of_further, list_elem_of_here.
  - assert (Hin : ∀ f, f ∈ [f0; f1; f2] →
                       (str_int (position f names), f)
                         ∈ ViewCallGraph.number_nodes names).
    { intros f Hf. apply elem_of_number_nodes. eexists. split; [done|].
      apply position_lookup, Hls. eapply Hkn; [|done].
      by eapply list_elem_of_lookup_2. }
    repeat split; apply Hin; set_solver.
Qed.

(** The claim's failing input: 258 hits with frames C, B, A, and the row of
    index 257 selected. *)
Lemma highlight_three_frames_by_index_witness :
  ∃ g,
    Interactive.create_and_view_graph
      (Interactive.session (replicate 258 (["C"; "B"; "A"], [])))
      ["A"; "B"; "C"] (Some 257) = Ok g ∧
    (∀ a b, (a, b, "red") ∉ Interactive.edges g) ∧
    ("1", "2", "black") ∈ Interactive.edges g ∧
    ("0", "1", "black") ∈ Interactive.edges g.
Proof.
  destruct (highlight_three_frames_by_index
              (replicate 258 (["C"; "B"; "A"], []))
              ["A"; "B"; "C"] 257 "C" "B" "A") as (g & Hg & _ & Hlarge & _).
  - listing.
  - vm_compute. reflexivity.
  - exists g. split; [exact Hg|]. apply Hlarge. lia.
Defined.

(** C9.  A hit with fewer than two frames, anywhere among the hits:
    [create_and_view_graph] returns a graph, with and without that hit; both
    graphs draw the same edges, which are the adjacent pairs of the other
    hits, in the same number, and the hit's own loop over adjacent frames adds
    nothing and raises nothing.  With exactly one frame the graph has one node
    labelled with that frame's tidied name and its labels are those of the
    other hits and this one, so the node count grows by one unless another hit
    has the name already; with no frame the labels are those of the other
    hits. *)
Theorem short_trace_adds_no_edge
    (before after : list (list string)) (frames names0 names : list string) :
  length frames < 2 →
  lists_set names0
    (ViewCallGraph.function_names (ViewCallGraph.session (before ++ after))) →
  lists_set names
    (ViewCallGraph.function_names
       (ViewCallGraph.session (before ++ frames :: after))) →
  ∃ g0 g,
    ViewCallGraph.create_and_view_graph
      (ViewCallGraph.session (before ++ after)) names0 = Ok g0 ∧
    ViewCallGraph.create_and_view_graph
      (ViewCallGraph.session (before ++ frames :: after)) names = Ok g ∧
    (∀ E, ViewCallGraph.add_stack_edges names (tidy <$> frames)
            (range_len_pred (tidy <$> frames)) E = Ok E) ∧
    (∀ c e, draws g c e ↔ draws g0 c e) ∧
    (∀ c e, draws g c e ↔
            ∃ hit, hit ∈ before ++ after ∧ (c, e) ∈ adjacencies (tidy <$> hit)) ∧
    size (ViewCallGraph.edges g) = size (ViewCallGraph.edges g0) ∧
    (∀ f, frames = [f] →
       (∃ a, (a, tidy f) ∈ ViewCallGraph.nodes g) ∧
       (∀ a b, (a, tidy f) ∈ ViewCallGraph.nodes g →
               (b, tidy f) ∈ ViewCallGraph.nodes g → a = b) ∧
       (∀ x, x ∈ (ViewCallGraph.nodes g).*2 ↔
             x ∈ (ViewCallGraph.nodes g0).*2 ∨ x = tidy f) ∧
       length (ViewCallGraph.nodes g)
         = length (ViewCallGraph.nodes g0)
           + (if decide (tidy f ∈ ViewCallGraph.function_names
                                    (ViewCallGraph.session (before ++ after)))
              then 0 else 1)) ∧
    (frames = [] →
       (∀ x, x ∈ (ViewCallGraph.nodes g).*2 ↔
             x ∈ (ViewCallGraph.nodes g0).*2) ∧
       length (ViewCallGraph.nodes g) = length (ViewCallGraph.nodes g0)).
Proof.
  intros Hlen Hls0 Hls.
  pose proof (ViewFacts.session_known (before ++ after)) as Hk0.
  pose proof (ViewFacts.session_known (before ++ frames :: after)) as Hk.
  assert (Hadj : adjacencies (tidy <$> frames) = []).
  { destruct frames as [|? [|? ?]]; simpl in *; [done|done|lia]. }
  assert (Hobs : observed (ViewCallGraph.stacks
                             (ViewCallGraph.session (before ++ frames :: after)))
               = observed (ViewCallGraph.stacks
                             (ViewCallGraph.session (before ++ after)))).
  { rewrite !ViewFacts.session_stacks, !fmap_app, fmap_cons, !observed_app.
    rewrite (observed_cons (tidy <$> frames)). unfold observed at 2.
    cbn [mbind list_bind]. rewrite Hadj. set_solver. }
  assert (Hfn : ViewCallGraph.function_names
                  (ViewCallGraph.session (before ++ frames :: after))
              = ViewCallGraph.function_names
                  (ViewCallGraph.session (before ++ after))
                ∪ list_to_set (tidy <$> frames)).
  { rewrite !ViewFacts.session_function_names, !fmap_app, fmap_cons.
    rewrite !concat_app, concat_cons, !list_to_set_app_L. set_solver. }
  eexists _, _.
  split; [by apply create_and_view_graph_spec|].
  split; [by apply create_and_view_graph_spec|].
  cbn [ViewCallGraph.edges ViewCallGraph.nodes].
  rewrite !number_nodes_labels.
  assert (Hln : ∀ l, length (ViewCallGraph.number_nodes l) = length l)
    by (intros l; apply length_imap).
  rewrite !Hln.
  rewrite (lists_set_length names _ Hls), (lists_set_length names0 _ Hls0).
  rewrite !(id_edges_size _ _ Hls _ Hk), !(id_edges_size _ _ Hls0 _ Hk0).
  split; [|split; [|split; [|split; [|split]]]].
  - intros E. unfold range_len_pred. rewrite length_fmap.
    by replace (length frames - 1) with 0 by lia.
  - intros c e.
    by rewrite (draws_observed _ _ Hls _ c e Hk),
               (draws_observed _ _ Hls0 _ c e Hk0), Hobs.
  - intros c e. rewrite (draws_observed _ _ Hls _ c e Hk), Hobs.
    rewrite ViewFacts.session_stacks, elem_of_observed. split.
    + intros (stack & (hit & -> & Hhit)%list_elem_of_fmap & Hp). eauto.
    + intros (hit & Hhit & Hp). eexists. split; [|done].
      by apply list_elem_of_fmap_2.
  - by rewrite Hobs.
  - intros f ->. cbn [fmap list_fmap] in Hfn.
    assert (Hf : tidy f ∈ names).
    { apply Hls. rewrite Hfn. set_solver. }
    split; [|split; [|split]].
    + apply list_elem_of_lookup in Hf as [i Hi]. exists (str_int i).
      apply elem_of_number_nodes. eauto.
    + intros a b (i & -> & Hi)%elem_of_number_nodes
                 (j & -> & Hj)%elem_of_number_nodes.
      f_equal. destruct Hls as [Hnd _]. by eapply NoDup_lookup.
    + intros x. destruct Hls as [_ ->], Hls0 as [_ ->]. rewrite Hfn.
      set_solver.
    + rewrite Hfn. destruct (decide _) as [Hin|Hout].
      * rewrite Nat.add_0_r. f_equal. set_solver.
      * rewrite size_union by set_solver.
        f_equal. rewrite list_to_set_singleton. apply size_singleton.
  - intros ->. rewrite fmap_nil, list_to_set_nil, (right_id_L ∅ (∪)) in Hfn.
    split.
    + intros x. destruct Hls as [_ ->], Hls0 as [_ ->]. by rewrite Hfn.
    + by rewrite Hfn.
Qed.

Lemma short_trace_adds_no_edge_witness :
  ∃ g0 g,
    ViewCallGraph.create_and_view_graph
      (ViewCallGraph.session [["C"; "B"]; ["D(int)"; "B"]]) ["B"; "C"; "D"]
      = Ok g0 ∧
    ViewCallGraph.create_and_view_graph
      (ViewCallGraph.session [["C"; "B"]; ["main(int)"]; ["D(int)"; "B"]])
      ["main"; "D"; "B"; "C"] = Ok g ∧
    size (ViewCallGraph.edges g) = size (ViewCallGraph.edges g0) ∧
    (∃ a, (a, "main") ∈ ViewCallGraph.nodes g) ∧
    length (ViewCallGraph.nodes g) = length (ViewCallGraph.nodes g0) + 1.
Proof.
  destruct (short_trace_adds_no_edge
              [["C"; "B"]] [["D(int)"; "B"]] ["main(int)"]
              ["B"; "C"; "D"] ["main"; "D"; "B"; "C"])
    as (g0 & g & Hg0 & Hg & _ & _ & _ & Hsize & Hone & _).
  - simpl. lia.
  - listing.
  - listing.
  - exists g0, g. split; [exact Hg0|]. split; [exact Hg|].
    split; [exact Hsize|].
    destruct (Hone _ eq_refl) as (Hnode & _ & _ & Hcount).
    split; [exact Hnode | exact Hcount].
Defined.

(** C10.  After any sequence of hits every frame name stored in a stack is in
    the function-name set, so every [index] lookup made while building the
    edges finds its name and [create_and_view_graph] raises nothing. *)
Theorem lookups_never_fail (hits : list (list string)) (names : list string) :
  lists_set names
    (ViewCallGraph.function_names (ViewCallGraph.session hits)) →
  frames_known (ViewCallGraph.stacks (ViewCallGraph.session hits))
    (ViewCallGraph.function_names (ViewCallGraph.session hits)) ∧
  (∀ stack f, stack ∈ ViewCallGraph.stacks (ViewCallGraph.session hits) →
     f ∈ stack → ∃ i, list_index f names = Ok i) ∧
  raises (ViewCallGraph.create_and_view_graph
            (ViewCallGraph.session hits) names) = false.
Proof.
  intros Hls. pose proof (ViewFacts.session_known hits) as Hk.
  split; [done|]. split.
  - intros stack f Hs Hf. exists (position f names).
    apply list_index_position, Hls. by eapply Hk.
  - by rewrite create_and_view_graph_spec.
Qed.

Lemma lookups_never_fail_witness :
  raises (ViewCallGraph.create_and_view_graph
            (ViewCallGraph.session
               [["C"; "arrow::B(int)"; "A"]; ["C"; "std::D"; "A"]])
            ["D"; "A"; "C"; "B"]) = false.
Proof.
  apply (lookups_never_fail
           [["C"; "arrow::B(int)"; "A"]; ["C"; "std::D"; "A"]]
           ["D"; "A"; "C"; "B"]).
  listing.
Defined.

(** * Facts for the further properties *)

Module TidyMore.
Import PyStr Normalizer Ref Ref2 StrFacts TidyFacts.

Lemma chars_inj a b : chars a = chars b → a = b.
Proof.
  revert b. induction a as [|c a IH]; intros [|d b]; try done.
  intros [= -> H]. f_equal. by apply IH.
Qed.

Lemma chars_length s : length (chars s) = String.length s.
Proof. induction s as [|c s IH]; [done|]. cbn. by rewrite IH. Qed.

(** The split, slice and join of line 14 against the one-pass reading. *)
Lemma strip_groups_keep_both s :
  join_empty (slice_step2 (re_split_parens s)) = keep_outside true s ∧
  join_empty (slice_step2 (tail (re_split_parens s))) = keep_outside false s.
Proof.
  induction s as [|c s [IHt IHf]]; [done|].
  cbn [re_split_parens keep_outside]. destruct (is_paren c) eqn:Hc.
  - cbn [tail negb]. split; [|done]. cbn [slice_step2].
    destruct (re_split_parens s) as [|p ps] eqn:Hs.
    + by destruct (re_split_parens_nonempty s).
    + rewrite join_empty_cons. exact IHf.
  - destruct (re_split_parens s) as [|p ps] eqn:Hs.
    + by destruct (re_split_parens_nonempty s).
    + cbn [tail] in *. split; [|done].
      cbn [slice_step2] in *. rewrite join_empty_cons in *.
      change (String c p +:+ ?x) with (String c (p +:+ x)). by rewrite IHt.
Qed.

Lemma keep_outside_sublist b s : chars (keep_outside b s) `sublist_of` chars s.
Proof.
  revert b. induction s as [|c s IH]; intros b; [done|].
  cbn [keep_outside chars]. destruct (is_paren c).
  - by apply sublist_cons.
  - destruct b; [by apply sublist_skip|by apply sublist_cons].
Qed.

Lemma remove_go_sublist old k s : chars (remove_go old k s) `sublist_of` chars s.
Proof.
  revert k. induction s as [|c s IH]; intros k; [done|].
  cbn [remove_go chars]. destruct k; [|by apply sublist_cons].
  destruct (String.prefix old (String c s)).
  - by apply sublist_cons.
  - by apply sublist_skip.
Qed.

Lemma replace_with_empty_sublist old s :
  chars (replace_with_empty old s) `sublist_of` chars s.
Proof. destruct old; [done|]. apply remove_go_sublist. Qed.

Lemma prefix_sublist p s :
  String.prefix p s = true → chars p `sublist_of` chars s.
Proof.
  revert s. induction p as [|c p IH]; intros s.
  - intros _. apply sublist_nil_l.
  - destruct s as [|d s]; [done|]. simpl.
    destruct (ascii_dec c d) as [->|]; [|done]. intros H. by apply sublist_skip, IH.
Qed.

Lemma strip_namespaces_sublist s :
  chars (strip_namespaces s) `sublist_of` chars s.
Proof.
  unfold strip_namespaces.
  repeat (etrans; [apply replace_with_empty_sublist|]). done.
Qed.

Lemma collapse_family_sublist s :
  chars (collapse_family s) `sublist_of` chars s.
Proof.
  unfold collapse_family, startswith.
  destruct (String.prefix family s) eqn:H; [by apply prefix_sublist|done].
Qed.

Lemma sublist_same_length {A} (l1 l2 : list A) :
  l1 `sublist_of` l2 → length l2 ≤ length l1 → l1 = l2.
Proof.
  induction 1 as [|x l1 l2 _ IH|x l1 l2 Hs _]; intros Hl; [done|..].
  - simpl in Hl. f_equal. apply IH. lia.
  - apply sublist_length in Hs. simpl in Hl. lia.
Qed.

End TidyMore.

Module BarrierFacts.
Import PyStr Normalizer Ref Ref2 StrFacts TidyFacts TidyMore.

Lemma append_cons c a b : String c a +:+ b = String c (a +:+ b).
Proof. done. Qed.

Lemma append_empty_r a : a +:+ "" = a.
Proof. induction a as [|c a IH]; [done|]. by rewrite append_cons, IH. Qed.

Lemma append_length a b :
  String.length (a +:+ b) = String.length a + String.length b.
Proof. induction a as [|c a IH]; [done|]. rewrite append_cons. simpl. by rewrite IH. Qed.

(** A character that is not in [old] stops every occurrence of [old]. *)
Lemma prefix_barrier old u c rest :
  c ∉ chars old →
  String.prefix old (u +:+ String c rest) = String.prefix old u.
Proof.
  revert u. induction old as [|d old IH]; intros u Hc.
  - by destruct u.
  - cbn [chars] in Hc. apply not_elem_of_cons in Hc as [Hne Hc].
    destruct u as [|x u].
    + simpl. by destruct (ascii_dec d c).
    + rewrite append_cons. simpl. destruct (ascii_dec d x); [|done]. by apply IH.
Qed.

Lemma remove_go_barrier d old k a c rest :
  c ∉ chars (String d old) → k ≤ String.length a →
  remove_go (String d old) k (a +:+ String c rest) =
  remove_go (String d old) k a +:+ String c (remove_go (String d old) 0 rest).
Proof.
  intros Hc. revert k. induction a as [|x a IH]; intros k Hk.
  - simpl in Hk. assert (k = 0) as -> by lia.
    change ("" +:+ String c rest) with (String c rest).
    cbn [remove_go]. pose proof (prefix_barrier (String d old) "" c rest Hc) as Hp.
    change ("" +:+ String c rest) with (String c rest) in Hp. rewrite Hp. done.
  - rewrite append_cons. cbn [remove_go]. destruct k as [|k].
    + rewrite <- append_cons, (prefix_barrier _ (String x a) c rest Hc).
      destruct (String.prefix (String d old) (String x a)) eqn:Hp.
      * apply IH. apply prefix_length in Hp. simpl in *. lia.
      * rewrite append_cons. f_equal. apply IH. lia.
    + apply IH. simpl in Hk. lia.
Qed.

Lemma replace_barrier old a c rest :
  c ∉ chars old →
  replace_with_empty old (a +:+ String c rest) =
  replace_with_empty old a +:+ String c (replace_with_empty old rest).
Proof.
  intros Hc. destruct old as [|d old]; [done|].
  unfold replace_with_empty. apply remove_go_barrier; [done|lia].
Qed.

Lemma plain_namespaces_call a b :
  plain_namespaces (a +:+ String "(" (b +:+ String ")" "")) =
  plain_namespaces a +:+ String "(" (plain_namespaces b +:+ String ")" "").
Proof.
  unfold plain_namespaces.
  rewrite !(replace_barrier "arrow::") by (vm_compute; set_solver).
  rewrite !(replace_barrier "engine::") by (vm_compute; set_solver).
  rewrite !(replace_barrier "std::") by (vm_compute; set_solver).
  done.
Qed.

Lemma plain_namespaces_paren_free s :
  paren_free s = true → paren_free (plain_namespaces s) = true.
Proof.
  intros H. unfold plain_namespaces. by do 3 apply replace_with_empty_paren_free.
Qed.

Lemma strip_namespaces_plain s :
  strip_namespaces s =
  replace_with_empty "(anonymous namespace)::" (plain_namespaces s).
Proof. done. Qed.

Lemma occurs_skip x m a t :
  is_paren x = true → paren_free a = true →
  occurs (String x m) (a +:+ t) = occurs (String x m) t.
Proof.
  intros Hx. induction a as [|c a IH]; [done|].
  cbn [paren_free]. intros [Hc Ha]%andb_true_iff.
  rewrite append_cons. cbn [occurs]. rewrite (IH Ha).
  simpl. destruct (ascii_dec x c) as [->|]; [|done].
  by rewrite Hx in Hc.
Qed.

Lemma prefix_first_paren m t b u x y :
  paren_free m = true → paren_free b = true →
  is_paren x = true → is_paren y = true →
  String.prefix (m +:+ String x t) (b +:+ String y u) = true →
  String.prefix t u = true.
Proof.
  intros Hm Hb Hx Hy. revert b Hb. induction m as [|c m IH]; intros b Hb.
  - destruct b as [|d b].
    + simpl. by destruct (ascii_dec x y).
    + rewrite append_cons. simpl. destruct (ascii_dec x d) as [->|]; [|done].
      cbn [paren_free] in Hb. by rewrite Hx in Hb.
  - cbn [paren_free] in Hm. apply andb_true_iff in Hm as [Hc Hm].
    destruct b as [|d b].
    + rewrite append_cons. simpl. destruct (ascii_dec c y) as [->|]; [|done].
      by rewrite Hy in Hc.
    + rewrite !append_cons. simpl. destruct (ascii_dec c d); [|done].
      cbn [paren_free] in Hb. apply andb_true_iff in Hb as [_ Hb]. by apply IH.
Qed.

Lemma anonymous_absent_in_call a b :
  paren_free a = true → paren_free b = true →
  occurs "(anonymous namespace)::" (a +:+ String "(" (b +:+ String ")" ""))
  = false.
Proof.
  intros Ha Hb. rewrite occurs_skip by done.
  cbn [occurs]. rewrite occurs_skip by done.
  apply orb_false_iff. split; [|by vm_compute].
  destruct (String.prefix _ _) eqn:Hp; [|done].
  assert (Hanon : "(anonymous namespace)::"
            = String "(" ("anonymous namespace" +:+ String ")" "::")) by done.
  rewrite Hanon in Hp. cbn [String.prefix] in Hp.
  destruct (ascii_dec "(" "(") as [_|]; [|done].
  by apply prefix_first_paren in Hp.
Qed.

End BarrierFacts.

Module CaptureMore.
Import Py Ref Ref2 Normalizer ListFacts CaptureFacts ViewFacts GraphFacts InteractiveFacts.

Lemma elem_of_concat {A} (x : A) (ls : list (list A)) :
  x ∈ concat ls ↔ ∃ l, l ∈ ls ∧ x ∈ l.
Proof.
  induction ls as [|l ls IH]; simpl.
  - split; [by intros ?%elem_of_nil|]. by intros (l & ?%elem_of_nil & _).
  - rewrite elem_of_app, IH. split.
    + intros [H|(l' & H1 & H2)].
      * exists l. split; [apply list_elem_of_here|done].
      * exists l'. split; [by apply list_elem_of_further|done].
    + intros (l' & [->|H1]%elem_of_cons & H2); [by left|right; eauto].
Qed.

Lemma session_app hits more :
  ViewCallGraph.session (hits ++ more)
  = foldl ViewCallGraph.stop (ViewCallGraph.session hits) more.
Proof. unfold ViewCallGraph.session. apply foldl_app. Qed.

Lemma istacks_and_locals_foldl hits self :
  Interactive.stacks_and_locals (foldl Interactive.stop self hits) =
  Interactive.stacks_and_locals self ++
    (recorded <$> hits).
Proof.
  revert self. induction hits as [|hit hits IH]; intros self; simpl.
  - by rewrite app_nil_r.
  - rewrite IH. unfold Interactive.stop. rewrite walk_spec. simpl.
    by rewrite <- app_assoc.
Qed.

Lemma isession_recorded hits :
  Interactive.stacks_and_locals (Interactive.session hits) = recorded <$> hits.
Proof. unfold Interactive.session. by rewrite istacks_and_locals_foldl. Qed.

End CaptureMore.

Module GraphMore.
Import Py Ref Ref2 Normalizer ListFacts CaptureFacts ViewFacts GraphFacts InteractiveFacts.

Global Instance pair_known_dec names p : Decision (pair_known names p).
Proof. unfold pair_known. apply _. Defined.

(** The loop of lines 48-51 over a run of indices, whatever the names. *)
Lemma add_stack_edges_run_cases names stack n k E :
  k + n ≤ length (adjacencies stack) →
  ViewCallGraph.add_stack_edges names stack (seq k n) E =
  if decide (Forall (pair_known names) (take n (drop k (adjacencies stack))))
  then Ok (E ∪ list_to_set
                 (edge_of names <$> take n (drop k (adjacencies stack))))
  else Raise ValueError.
Proof.
  revert k E. induction n as [|n IH]; intros k E Hlen.
  - cbn [seq ViewCallGraph.add_stack_edges take].
    rewrite decide_True by constructor. f_equal. set_solver.
  - destruct (lookup_lt_is_Some_2 (adjacencies stack) k) as [[c e] Hk]; [lia|].
    pose proof Hk as [Hc He]%adjacencies_lookup.
    rewrite (drop_S _ _ _ Hk). cbn [take].
    cbn [seq ViewCallGraph.add_stack_edges]. unfold getitem.
    rewrite Hc, He. cbn [bind].
    destruct (decide (c ∈ names)) as [Hcn|Hcn].
    + rewrite (list_index_position c) by done. cbn [bind].
      destruct (decide (e ∈ names)) as [Hen|Hen].
      * rewrite (list_index_position e) by done. cbn [bind].
        rewrite IH by lia.
        destruct (decide (Forall (pair_known names)
                            (take n (drop (S k) (adjacencies stack)))))
          as [Hall|Hall].
        -- rewrite decide_True by (by constructor).
           cbn [fmap list_fmap]. rewrite list_to_set_cons. f_equal.
           symmetry. apply (assoc_L (∪)).
        -- rewrite decide_False; [done|]. by intros [_ ?]%Forall_cons.
      * rewrite (list_index_absent e) by done. cbn [bind].
        rewrite decide_False; [done|]. intros [[_ ?] _]%Forall_cons. done.
    + rewrite (list_index_absent c) by done. cbn [bind].
      rewrite decide_False; [done|]. intros [[? _] _]%Forall_cons. done.
Qed.

Lemma add_stack_edges_cases names stack E :
  ViewCallGraph.add_stack_edges names stack (range_len_pred stack) E =
  if decide (Forall (pair_known names) (adjacencies stack))
  then Ok (E ∪ id_edges names [stack])
  else Raise ValueError.
Proof.
  unfold range_len_pred. rewrite <- adjacencies_length.
  rewrite add_stack_edges_run_cases by lia.
  rewrite drop_0, firstn_all. case_decide; [|done]. do 2 f_equal.
  unfold id_edges, observed. cbn [mbind list_bind]. rewrite app_nil_r.
  by rewrite <- list_to_set_fmap_L.
Qed.

Lemma add_edges_cases names stacks E :
  ViewCallGraph.add_edges names stacks E =
  if decide (Forall (pair_known names) (stacks ≫= adjacencies))
  then Ok (E ∪ id_edges names stacks)
  else Raise ValueError.
Proof.
  revert E. induction stacks as [|stack stacks IH]; intros E.
  - cbn [ViewCallGraph.add_edges mbind list_bind].
    rewrite decide_True by constructor. f_equal.
    unfold id_edges. rewrite observed_nil. set_solver.
  - cbn [ViewCallGraph.add_edges mbind list_bind].
    rewrite add_stack_edges_cases.
    destruct (decide (Forall (pair_known names) (adjacencies stack)))
      as [H1|H1]; cbn [bind].
    + rewrite IH.
      destruct (decide (Forall (pair_known names) (stacks ≫= adjacencies)))
        as [H2|H2].
      * rewrite decide_True by (by apply Forall_app). f_equal.
        rewrite (id_edges_cons names stack stacks). by rewrite (assoc_L (∪)).
      * rewrite decide_False; [done|]. by intros [_ ?]%Forall_app.
    + rewrite decide_False; [done|]. by intros [? _]%Forall_app.
Qed.

(** In a stack of two frames or more every frame is in an adjacent pair. *)
Lemma frame_in_adjacency stack f :
  2 ≤ length stack → f ∈ stack →
  ∃ p, p ∈ adjacencies stack ∧ (p.1 = f ∨ p.2 = f).
Proof.
  intros Hlen [i Hi]%list_elem_of_lookup_1.
  pose proof (lookup_lt_Some _ _ _ Hi) as Hlt.
  destruct (decide (i + 1 < length stack)) as [Hnext|Hlast].
  - destruct (lookup_lt_is_Some_2 stack (i + 1)) as [c Hc]; [done|].
    exists (c, f). split; [|by right].
    eapply list_elem_of_lookup_2, adjacencies_lookup. eauto.
  - destruct i as [|i]; [lia|].
    destruct (lookup_lt_is_Some_2 stack i) as [e He]; [lia|].
    exists (f, e). split; [|by left].
    eapply (list_elem_of_lookup_2 _ i), adjacencies_lookup.
    by replace (i + 1) with (S i) by lia.
Qed.

Lemma adjacencies_short stack : length stack < 2 → adjacencies stack = [].
Proof. destruct stack as [|? [|? ?]]; simpl; [done|done|lia]. Qed.

Lemma all_pairs_known names stacks :
  Forall (pair_known names) (stacks ≫= adjacencies) ↔
  ∀ stack f, stack ∈ stacks → 2 ≤ length stack → f ∈ stack → f ∈ names.
Proof.
  rewrite Forall_forall. split.
  - intros H stack f Hs Hlen Hf.
    destruct (frame_in_adjacency stack f Hlen Hf) as ([c e] & Hp & Hor).
    destruct (H (c, e)) as [Hc He].
    { apply list_elem_of_bind. eauto. }
    simpl in *. by destruct Hor as [<-|<-].
  - intros H [c e] (stack & Hp & Hs)%list_elem_of_bind.
    assert (2 ≤ length stack).
    { destruct (decide (2 ≤ length stack)); [done|].
      rewrite adjacencies_short in Hp by lia. by apply elem_of_nil in Hp. }
    apply adjacencies_known in Hp as [? ?]. split; by eapply H.
Qed.

Lemma size_list_to_set_le `{Countable A} (l : list A) :
  size (list_to_set (C:=gset A) l) ≤ length l.
Proof.
  induction l as [|x l IH]; [by rewrite list_to_set_nil, size_empty|].
  rewrite list_to_set_cons, size_union_alt, size_singleton. simpl.
  assert (Hsub : list_to_set l ∖ {[x]} ⊆ list_to_set (C:=gset A) l)
    by set_solver.
  apply subseteq_size in Hsub. lia.
Qed.

Lemma uncolor_paint (col : string) (X : gset (string * string)) :
  set_map (C:=gset (string * string * string)) (D:=gset (string * string))
    uncolor (set_map (D:=gset (string * string * string)) (paint col) X) = X.
Proof.
  apply set_eq. intros [a b]. rewrite elem_of_map. split.
  - intros ([[a' b'] c] & [= -> ->] & [_ H]%elem_of_paint). done.
  - intros H. exists (a, b, col). split; [done|]. by apply elem_of_paint.
Qed.

Lemma uncolor_colored (names : list string) selected idx stacks :
  set_map (C:=gset (string * string * string)) (D:=gset (string * string))
    uncolor (colored names selected idx stacks) = id_edges names stacks.
Proof.
  revert idx. induction stacks as [|stack stacks IH]; intros idx.
  - unfold id_edges. rewrite observed_nil. set_solver.
  - cbn [colored]. rewrite set_map_union_L, uncolor_paint, IH.
    by rewrite (id_edges_cons names stack stacks).
Qed.

Lemma colored_colors names selected idx stacks a b col :
  (a, b, col) ∈ colored names selected idx stacks → col = "red" ∨ col = "black".
Proof.
  revert idx. induction stacks as [|stack stacks IH]; intros idx.
  - by intros ?%elem_of_empty.
  - cbn [colored]. intros [[-> _]%elem_of_paint|H]%elem_of_union; [|by eapply IH].
    unfold Interactive.color_of. destruct (Interactive.is_selected _ _); auto.
Qed.

Lemma elem_of_id_edges_one names stack a b :
  (a, b) ∈ id_edges names [stack] ↔
  ∃ i caller callee,
    stack !! (i + 1) = Some caller ∧ stack !! i = Some callee ∧
    a = str_int (position caller names) ∧ b = str_int (position callee names).
Proof.
  unfold id_edges. rewrite elem_of_map. split.
  - intros ([c e] & [= -> ->] & Hp).
    apply elem_of_observed in Hp as (s & ->%list_elem_of_singleton & Hp).
    apply list_elem_of_lookup_1 in Hp as [i Hi].
    apply adjacencies_lookup in Hi as [? ?]. by exists i, c, e.
  - intros (i & c & e & Hc & He & -> & ->). exists (c, e). split; [done|].
    apply elem_of_observed. exists stack. split; [by apply list_elem_of_singleton|].
    eapply list_elem_of_lookup_2, adjacencies_lookup. eauto.
Qed.

Lemma id_edges_empty (names : list string) stacks :
  id_edges names stacks = ∅ ↔ observed stacks = ∅.
Proof.
  unfold id_edges. split; [|intros ->; set_solver].
  intros H. apply set_eq. intros p. split; [|set_solver]. intros Hp.
  assert (edge_of names p ∈ (∅ : gset (string * string))); [|set_solver].
  rewrite <- H. apply elem_of_map. eauto.
Qed.

End GraphMore.

Module TableFacts.
Import Py Ref Ref2 Normalizer StackTable.

Lemma getitem_from_end_cases l n :
  getitem_from_end l n =
  if decide (n ≤ length l)
  then match l !! (length l - n) with
       | Some x => Ok x
       | None => Raise IndexError
       end
  else Raise IndexError.
Proof. done. Qed.

Lemma getitem_from_end_ok l n :
  0 < n → n ≤ length l →
  ∃ x, getitem_from_end l n = Ok x ∧ l !! (length l - n) = Some x.
Proof.
  intros Hn Hl. unfold getitem_from_end, getitem. rewrite decide_True by done.
  destruct (lookup_lt_is_Some_2 l (length l - n)) as [x Hx]; [lia|].
  rewrite Hx. eauto.
Qed.

Lemma getitem_from_end_short l n :
  length l < n → getitem_from_end l n = Raise IndexError.
Proof. intros H. unfold getitem_from_end. by rewrite decide_False by lia. Qed.

Lemma add_rows_cases index sl :
  (Forall deep sl →
   ∃ rs, add_rows index sl = Ok rs ∧ length rs = length sl ∧
     ∀ k stack locals, sl !! k = Some (stack, locals) →
       ∃ test, stack !! (length stack - 12) = Some test ∧
         rs !! k = Some {| label := str_int (index + k);
                           user_data := index + k;
                           cells := Interactive.value <$> locals;
                           test_name := test |}) ∧
  (¬ Forall deep sl →
   add_rows index sl = Raise IndexError).
Proof.
  revert index. induction sl as [|[stack locals] sl IH]; intros index.
  - split; [|by intros []].
    intros _. exists []. split; [done|]. split; [done|]. by intros k ?? ?.
  - cbn [add_rows]. split.
    + intros [Hs Hrest]%Forall_cons. unfold deep in Hs. simpl in Hs.
      destruct (getitem_from_end_ok stack 12) as (test & -> & Htest); [lia|done|].
      cbn [bind]. destruct (proj1 (IH (S index)) Hrest) as (rs & -> & Hlen & Hrows).
      cbn [bind]. eexists. split; [done|]. split; [simpl; by rewrite Hlen|].
      intros [|k] stack' locals' Hk.
      * simpl in Hk. injection Hk as <- <-. exists test. split; [done|].
        simpl. by rewrite Nat.add_0_r.
      * simpl in Hk. destruct (Hrows k stack' locals' Hk) as (t & Ht & Hr).
        exists t. split; [done|]. simpl.
        by replace (index + S k) with (S index + k) by lia.
    + intros Hnot. destruct (decide (12 ≤ length stack)) as [Hs|Hs].
      * destruct (getitem_from_end_ok stack 12) as (test & -> & _); [lia|done|].
        cbn [bind]. rewrite (proj2 (IH (S index))); [done|].
        intros Hrest. apply Hnot. by constructor.
      * by rewrite getitem_from_end_short by lia.
Qed.

End TableFacts.

Module ExitFacts.
Import Py Ref Ref2 Normalizer StackTable TableFacts.

Lemma all_deep_iff (sl : list (list string * list Interactive.local)) :
  Forall deep sl ↔
  ∀ stack locals, (stack, locals) ∈ sl → 12 ≤ length stack.
Proof.
  rewrite Forall_forall. split.
  - intros H stack locals Hin. by apply (H (stack, locals)).
  - intros H [stack locals] Hin. simpl. by eapply H.
Qed.

Lemma walk_printed frames printed :
  PrintStack.walk frames printed = printed ++ (tidy <$> frames).
Proof.
  revert printed. induction frames as [|f frames IH]; intros printed; simpl.
  - by rewrite app_nil_r.
  - by rewrite IH, <- app_assoc.
Qed.

Lemma deep_recorded hits :
  Forall deep (recorded <$> hits) ↔
  ∀ hit : list string * list (string * string),
    hit ∈ hits → 12 ≤ length hit.1.
Proof.
  rewrite Forall_fmap, Forall_forall. unfold deep, recorded, compose. simpl.
  split; intros H hit Hin; specialize (H hit Hin);
    by rewrite length_fmap in *.
Qed.

End ExitFacts.

Module RawFacts.
Import Py Ref Ref2 Normalizer.

Lemma walk_spec_raw frames stack names :
  CaptureRaw.walk frames stack names =
  ((λ ns, stack ++ (tidy <$> ns)) <$> complete frames,
   names ∪ list_to_set (tidy <$> walked frames)).
Proof.
  revert stack names.
  induction frames as [|[name|] frames IH]; intros stack names.
  - simpl. rewrite app_nil_r. f_equal. set_solver.
  - cbn [CaptureRaw.walk walked complete]. rewrite IH. f_equal.
    + destruct (complete frames) as [ns|]; [|done]. simpl.
      by rewrite <- app_assoc.
    + rewrite fmap_cons, list_to_set_cons. set_solver.
  - simpl. f_equal. set_solver.
Qed.

Lemma complete_walked frames ns :
  complete frames = Some ns → walked frames = ns.
Proof.
  revert ns. induction frames as [|[name|] frames IH]; intros ns; simpl.
  - by intros [= <-].
  - destruct (complete frames) as [ms|]; [|done]. simpl.
    intros [= <-]. f_equal. by apply IH.
  - done.
Qed.

Lemma complete_named (named : list string) :
  complete (Some <$> named) = Some named.
Proof.
  induction named as [|n named IH]; [done|].
  rewrite fmap_cons. cbn [complete]. by rewrite IH.
Qed.

Lemma complete_is_Some frames :
  Forall is_Some frames → complete frames = Some (walked frames).
Proof.
  induction 1 as [|[name|] frames [? [=]] _ IH]; [done|].
  simpl. by rewrite IH.
Qed.

Lemma stop_function_names_raw self frames :
  ViewCallGraph.function_names (CaptureRaw.stop self frames)
  = ViewCallGraph.function_names self ∪ list_to_set (tidy <$> walked frames).
Proof.
  unfold CaptureRaw.stop. rewrite walk_spec_raw.
  by destruct (complete frames).
Qed.

Lemma stop_stacks_raw self frames :
  ViewCallGraph.stacks (CaptureRaw.stop self frames)
  = ViewCallGraph.stacks self
    ++ option_list (fmap (M:=list) tidy <$> complete frames).
Proof.
  unfold CaptureRaw.stop. rewrite walk_spec_raw.
  destruct (complete frames); simpl; [done|by rewrite app_nil_r].
Qed.

Lemma stop_named self (named : list string) :
  CaptureRaw.stop self (Some <$> named) = ViewCallGraph.stop self named.
Proof.
  unfold CaptureRaw.stop, ViewCallGraph.stop.
  rewrite walk_spec_raw, CaptureFacts.walk_spec, complete_named.
  simpl. by rewrite (complete_walked _ _ (complete_named named)).
Qed.

Lemma foldl_stop_raw hits self :
  ViewCallGraph.function_names (foldl CaptureRaw.stop self hits)
    = ViewCallGraph.function_names self
      ∪ list_to_set (concat ((λ hit, tidy <$> walked hit) <$> hits)) ∧
  ViewCallGraph.stacks (foldl CaptureRaw.stop self hits)
    = ViewCallGraph.stacks self
      ++ omap (λ hit, fmap (M:=list) tidy <$> complete hit) hits.
Proof.
  revert self. induction hits as [|hit hits IH]; intros self.
  - simpl. rewrite app_nil_r. split; [set_solver|done].
  - cbn [foldl]. destruct (IH (CaptureRaw.stop self hit)) as [-> ->].
    rewrite stop_function_names_raw, stop_stacks_raw.
    rewrite fmap_cons, concat_cons, list_to_set_app_L. split; [set_solver|].
    rewrite <- app_assoc. f_equal. cbn [omap list_omap].
    by destruct (complete hit).
Qed.

Lemma session_raw hits :
  ViewCallGraph.function_names (CaptureRaw.session hits)
    = list_to_set (concat ((λ hit, tidy <$> walked hit) <$> hits)) ∧
  ViewCallGraph.stacks (CaptureRaw.session hits)
    = omap (λ hit, fmap (M:=list) tidy <$> complete hit) hits.
Proof.
  unfold CaptureRaw.session.
  destruct (foldl_stop_raw hits ViewCallGraph.init) as [-> ->].
  split; [set_solver|done].
Qed.

Lemma session_named (named : list (list string)) :
  CaptureRaw.session (fmap (M:=list) Some <$> named)
  = ViewCallGraph.session named.
Proof.
  unfold CaptureRaw.session, ViewCallGraph.session.
  generalize ViewCallGraph.init.
  induction named as [|hit named IH]; intros self; [done|].
  cbn [fmap list_fmap foldl]. fold (fmap (M:=list) (@Some string) hit).
  rewrite stop_named. apply IH.
Qed.

Lemma session_known_raw hits :
  frames_known (ViewCallGraph.stacks (CaptureRaw.session hits))
    (ViewCallGraph.function_names (CaptureRaw.session hits)).
Proof.
  destruct (session_raw hits) as [-> ->]. intros stack f Hs Hf.
  apply list_elem_of_omap in Hs as (hit & Hhit & Hc).
  destruct (complete hit) as [ns|] eqn:Hns; [|done]. injection Hc as <-.
  apply complete_walked in Hns as <-.
  rewrite elem_of_list_to_set, CaptureMore.elem_of_concat.
  exists (tidy <$> walked hit). split; [|done].
  apply list_elem_of_fmap. by exists hit.
Qed.

End RawFacts.

(** * Further properties of the scripts *)

Import Ref2 StackTable.
Import TidyMore BarrierFacts CaptureMore GraphMore TableFacts ExitFacts.

(** X1.  The result of [tidy] contains no parenthesis, opening or closing,
    whatever the raw name; the parenthesis step has nothing left to strip
    from it. *)
Theorem tidy_output_is_parenthesis_free (r : string) :
  paren_free (tidy r) = true ∧
  strip_groups (tidy r) = tidy r ∧
  ∀ c, c ∈ chars (tidy r) → is_paren c = false.
Proof.
  pose proof (tidy_paren_free r) as H. split; [done|].
  split; [by apply strip_groups_paren_free|].
  induction (tidy r) as [|d t IH]; intros c Hc; [by apply elem_of_nil in Hc|].
  cbn [paren_free] in H. apply andb_true_iff in H as [Hd Ht].
  cbn [chars] in Hc. apply elem_of_cons in Hc as [->|Hc].
  - by apply negb_true_iff.
  - by apply IH.
Qed.

(** X2.  Line 14 of [tidy] (split at every parenthesis, keep the pieces of
    even index, join) keeps exactly the characters that are no parenthesis
    and have an even number of parentheses before them, in order: it is the
    one-pass scan [keep_outside]. *)
Theorem strip_groups_is_one_pass (s : string) :
  strip_groups s = keep_outside true s.
Proof. unfold strip_groups. apply strip_groups_keep_both. Qed.

(** X3.  [tidy] only deletes characters: the characters of the result are a
    subsequence of those of the raw name, so the result is never longer, and
    it has the same length only when it is the raw name itself. *)
Theorem tidy_only_deletes (r : string) :
  chars (tidy r) `sublist_of` chars r ∧
  String.length (tidy r) ≤ String.length r ∧
  (String.length (tidy r) = String.length r → tidy r = r).
Proof.
  assert (H : chars (tidy r) `sublist_of` chars r).
  { unfold tidy, strip_groups.
    rewrite (proj1 (strip_groups_keep_both _)).
    etrans; [apply keep_outside_sublist|].
    etrans; [apply collapse_family_sublist|]. apply strip_namespaces_sublist. }
  split; [done|]. rewrite <- !chars_length. split.
  - by apply sublist_length.
  - intros Hl. apply chars_inj. apply sublist_same_length; [done|lia].
Qed.

(** X4.  [tidy] leaves a raw name unchanged exactly when the name has no
    parenthesis, contains none of ["arrow::"], ["engine::"], ["std::"], and
    does not go on after the family prefix. *)
Theorem tidy_fixed_points (r : string) :
  tidy r = r ↔ paren_free r = true ∧ settled r = true.
Proof.
  split.
  - intros H. assert (Hp : paren_free r = true).
    { rewrite <- H. apply tidy_paren_free. }
    split; [done|]. by apply fixed_settled.
  - intros [Hp Hs]. by apply settled_fixed.
Qed.

(** X5.  A trailing argument list is dropped: when [a] and [b] contain no
    parenthesis, [tidy] of [a(b)] is [tidy] of [a], whatever the arguments
    [b] are. *)
Theorem tidy_drops_trailing_arguments (a b : string) :
  paren_free a = true → paren_free b = true →
  tidy (a +:+ String "(" (b +:+ String ")" "")) = tidy a.
Proof.
  intros Ha Hb.
  pose proof (plain_namespaces_paren_free a Ha) as Ha'.
  pose proof (plain_namespaces_paren_free b Hb) as Hb'.
  assert (Hcall : strip_namespaces (a +:+ String "(" (b +:+ String ")" "")) =
            plain_namespaces a +:+
              String "(" (plain_namespaces b +:+ String ")" "")).
  { rewrite strip_namespaces_plain, plain_namespaces_call.
    by apply replace_with_empty_absent, anonymous_absent_in_call. }
  assert (Hname : strip_namespaces a = plain_namespaces a).
  { rewrite strip_namespaces_plain.
    apply replace_with_empty_absent, occurs_paren_free; [by vm_compute|done]. }
  unfold tidy. rewrite Hcall, Hname. unfold collapse_family, startswith.
  rewrite prefix_barrier by (vm_compute; set_solver).
  destruct (String.prefix family (plain_namespaces a)); [done|].
  rewrite (strip_groups_paren_free (plain_namespaces a)) by done.
  unfold strip_groups. rewrite !re_split_parens_app by done.
  cbn [slice_step2 re_split_parens]. rewrite !join_empty_cons.
  by rewrite append_empty_r.
Qed.

Lemma tidy_drops_trailing_arguments_witness :
  tidy ("arrow::Foo" +:+ String "(" ("std::vector<int>, int" +:+ String ")" ""))
  = tidy "arrow::Foo".
Proof.
  apply (tidy_drops_trailing_arguments "arrow::Foo" "std::vector<int>, int");
    vm_compute; reflexivity.
Defined.

(** X6.  Capture is append-only: after more hits the stacks recorded before
    are still there, unchanged and at the same index, the new ones follow in
    arrival order, stack [k] is the tidied frame list of hit [k], and no
    function name is ever removed. *)
Theorem capture_is_append_only (hits more : list (list string)) :
  ViewCallGraph.stacks (ViewCallGraph.session (hits ++ more))
    = ViewCallGraph.stacks (ViewCallGraph.session hits)
      ++ (fmap (M:=list) tidy <$> more) ∧
  length (ViewCallGraph.stacks (ViewCallGraph.session hits)) = length hits ∧
  (∀ k frames, hits !! k = Some frames →
     ViewCallGraph.stacks (ViewCallGraph.session (hits ++ more)) !! k
       = Some (tidy <$> frames)) ∧
  ViewCallGraph.function_names (ViewCallGraph.session hits)
    ⊆ ViewCallGraph.function_names (ViewCallGraph.session (hits ++ more)).
Proof.
  rewrite !ViewFacts.session_stacks, !ViewFacts.session_function_names.
  rewrite fmap_app, length_fmap. split; [done|]. split; [done|]. split.
  - intros k frames Hk. rewrite lookup_app_l.
    + by rewrite list_lookup_fmap, Hk.
    + rewrite length_fmap. by eapply lookup_lt_Some.
  - rewrite concat_app, list_to_set_app_L. set_solver.
Qed.

(** X7.  What [stop] leaves in the breakpoint over a session in which a
    frame may have no function symbol.  The function-name set holds the
    tidied names of the frames each hit walked up to its first frame without
    a function, and nothing else; a stack is recorded for the hits whose
    frames all have a function, and for no other; every frame of a recorded
    stack is in the set, so [create_and_view_graph] returns.  When every
    frame of every hit has a function the set holds exactly the names that
    occur in some recorded stack, and the session is the one of the plain
    frame walk. *)
Theorem function_names_are_the_frames (hits : list (list CaptureRaw.frame)) :
  (∀ f, f ∈ ViewCallGraph.function_names (CaptureRaw.session hits) ↔
        ∃ hit, hit ∈ hits ∧ f ∈ tidy <$> walked hit) ∧
  ViewCallGraph.stacks (CaptureRaw.session hits)
    = omap (λ hit, fmap (M:=list) tidy <$> complete hit) hits ∧
  (∀ stack f, stack ∈ ViewCallGraph.stacks (CaptureRaw.session hits) →
              f ∈ stack →
              f ∈ ViewCallGraph.function_names (CaptureRaw.session hits)) ∧
  (∀ names,
     lists_set names (ViewCallGraph.function_names (CaptureRaw.session hits)) →
     ∃ g, ViewCallGraph.create_and_view_graph (CaptureRaw.session hits) names
          = Ok g) ∧
  (Forall (Forall is_Some) hits →
   ∀ f, f ∈ ViewCallGraph.function_names (CaptureRaw.session hits) ↔
        ∃ stack, stack ∈ ViewCallGraph.stacks (CaptureRaw.session hits)
                 ∧ f ∈ stack) ∧
  (∀ named, hits = fmap (M:=list) Some <$> named →
            CaptureRaw.session hits = ViewCallGraph.session named).
Proof.
  pose proof (RawFacts.session_known_raw hits) as Hk.
  destruct (RawFacts.session_raw hits) as [Hfn Hst].
  assert (Hnames : ∀ f,
    f ∈ ViewCallGraph.function_names (CaptureRaw.session hits) ↔
    ∃ hit, hit ∈ hits ∧ f ∈ tidy <$> walked hit).
  { intros f. rewrite Hfn, elem_of_list_to_set, elem_of_concat. split.
    - intros (l & (hit & -> & Hhit)%list_elem_of_fmap & Hf). eauto.
    - intros (hit & Hhit & Hf). eexists. split; [|done].
      apply list_elem_of_fmap. by exists hit. }
  split; [done|]. split; [done|]. split; [done|]. split; [|split].
  - intros names Hls. eexists. by apply create_and_view_graph_spec.
  - intros Hall f. split.
    + intros (hit & Hhit & Hf)%Hnames. exists (tidy <$> walked hit).
      split; [|done]. rewrite Hst. apply list_elem_of_omap. exists hit.
      split; [done|]. rewrite Forall_forall in Hall.
      by rewrite (RawFacts.complete_is_Some hit (Hall hit Hhit)).
    + intros (stack & Hs & Hf). by eapply Hk.
  - intros named ->. apply RawFacts.session_named.
Qed.

(** A hit whose second frame has no function: the name of its innermost frame
    is in the set and no stack is recorded. *)
Lemma function_names_are_the_frames_witness :
  "f" ∈ ViewCallGraph.function_names
          (CaptureRaw.session [Examples2.stripped_hit]) ∧
  ViewCallGraph.stacks (CaptureRaw.session [Examples2.stripped_hit]) = [].
Proof.
  destruct (function_names_are_the_frames [Examples2.stripped_hit])
    as (Hfn & Hst & _).
  split; [|exact Hst].
  apply Hfn. exists Examples2.stripped_hit. split.
  - apply list_elem_of_here.
  - vm_compute. apply list_elem_of_here.
Defined.

(** X8.  The interactive script stores, for hit [k], the tidied frames and the
    locals of the selected frame as name/value entries in block order; its
    stacks and its function-name set are those [python/view_call_graph.py]
    records for the same frame chains. *)
Theorem interactive_capture
    (hits : list (list string * list (string * string))) :
  Interactive.stacks_and_locals (Interactive.session hits) =
    ((λ hit : list string * list (string * string),
        (tidy <$> hit.1,
         (λ sym, {| Interactive.name := sym.1; Interactive.value := sym.2 |})
           <$> hit.2)) <$> hits) ∧
  (Interactive.stacks_and_locals (Interactive.session hits)).*1
    = ViewCallGraph.stacks (ViewCallGraph.session hits.*1) ∧
  Interactive.function_names (Interactive.session hits)
    = ViewCallGraph.function_names (ViewCallGraph.session hits.*1).
Proof.
  split; [|split].
  - unfold Interactive.session. by rewrite istacks_and_locals_foldl.
  - apply session_stacks_agree.
  - apply session_names_agree.
Qed.

(** X9.  For any state and any name list, [create_and_view_graph] of
    [python/view_call_graph.py] returns exactly when every frame of every
    stack of two frames or more is in the list; otherwise it raises
    [ValueError] (from [list.index]) and never [IndexError]. *)
Theorem create_and_view_graph_error_cases
    (self : ViewCallGraph.breakpoint) (names : list string) :
  (raises (ViewCallGraph.create_and_view_graph self names) = false ↔
   ∀ stack f, stack ∈ ViewCallGraph.stacks self → 2 ≤ length stack →
              f ∈ stack → f ∈ names) ∧
  (raises (ViewCallGraph.create_and_view_graph self names) = true →
   ViewCallGraph.create_and_view_graph self names = Raise ValueError).
Proof.
  unfold ViewCallGraph.create_and_view_graph. rewrite add_edges_cases.
  rewrite <- all_pairs_known. case_decide; cbn [bind raises]; split; try done.
Qed.

(** X10.  The graph draws an edge from the node labelled [caller] to the node
    labelled [callee] exactly when some stack has [callee] at an index [i]
    and [caller] at [i + 1]; both ends of every edge are nodes of the graph;
    a function directly above itself in a stack (recursion) gives a
    self-loop. *)
Theorem edges_are_adjacent_frames
    (hits : list (list string)) (names : list string) :
  lists_set names
    (ViewCallGraph.function_names (ViewCallGraph.session hits)) →
  ∃ g,
    ViewCallGraph.create_and_view_graph (ViewCallGraph.session hits) names
      = Ok g ∧
    (∀ caller callee,
       draws g caller callee ↔
       ∃ stack i,
         stack ∈ ViewCallGraph.stacks (ViewCallGraph.session hits) ∧
         stack !! (i + 1) = Some caller ∧ stack !! i = Some callee) ∧
    (∀ a b, (a, b) ∈ ViewCallGraph.edges g →
       ∃ caller callee,
         (a, caller) ∈ ViewCallGraph.nodes g ∧
         (b, callee) ∈ ViewCallGraph.nodes g ∧
         draws g caller callee) ∧
    (∀ stack i f,
       stack ∈ ViewCallGraph.stacks (ViewCallGraph.session hits) →
       stack !! i = Some f → stack !! (i + 1) = Some f → draws g f f).
Proof.
  intros Hls. pose proof (ViewFacts.session_known hits) as Hk.
  eexists. split; [by apply create_and_view_graph_spec|].
  assert (Hd : ∀ caller callee,
    draws {| ViewCallGraph.nodes := ViewCallGraph.number_nodes names;
             ViewCallGraph.edges :=
               id_edges names
                 (ViewCallGraph.stacks (ViewCallGraph.session hits)) |}
      caller callee ↔
    ∃ stack i,
      stack ∈ ViewCallGraph.stacks (ViewCallGraph.session hits) ∧
      stack !! (i + 1) = Some caller ∧ stack !! i = Some callee).
  { intros c e. rewrite (draws_observed _ _ Hls _ c e Hk), elem_of_observed.
    split.
    - intros (stack & Hs & [i Hi]%list_elem_of_lookup_1).
      apply adjacencies_lookup in Hi as [? ?]. by exists stack, i.
    - intros (stack & i & Hs & Hc & He). exists stack. split; [done|].
      eapply list_elem_of_lookup_2, adjacencies_lookup. eauto. }
  split; [exact Hd|]. split.
  - cbn [ViewCallGraph.edges ViewCallGraph.nodes]. intros a b Hab.
    pose proof Hab as ([c e] & [= -> ->] & Hp)%elem_of_map.
    destruct (observed_known _ _ _ Hk Hp) as [Hc He]. simpl in *.
    exists c, e. split; [|split].
    + apply elem_of_number_nodes. eexists. split; [done|].
      by eapply listed_position.
    + apply elem_of_number_nodes. eexists. split; [done|].
      by eapply listed_position.
    + apply (draws_observed _ _ Hls _ c e Hk). done.
  - intros stack i f Hs Hi Hi'. apply Hd. by exists stack, i.
Qed.

Lemma edges_are_adjacent_frames_witness :
  ∃ g,
    ViewCallGraph.create_and_view_graph
      (ViewCallGraph.session [["fact"; "fact"; "main"]]) ["main"; "fact"]
      = Ok g ∧
    draws g "fact" "fact".
Proof.
  destruct (edges_are_adjacent_frames [["fact"; "fact"; "main"]]
              ["main"; "fact"]) as (g & Hg & _ & _ & Hloop).
  - listing.
  - exists g. split; [exact Hg|].
    apply (Hloop ["fact"; "fact"; "main"] 0 "fact").
    + vm_compute. apply list_elem_of_here.
    + reflexivity.
    + reflexivity.
Defined.

(** X11.  The graph has no edge exactly when every hit has fewer than two
    frames, and it never has more edges than there are adjacent frame pairs
    in the hits (the sum of [len - 1] over the hits). *)
Theorem edges_empty_iff_short_stacks
    (hits : list (list string)) (names : list string) :
  lists_set names
    (ViewCallGraph.function_names (ViewCallGraph.session hits)) →
  ∃ g,
    ViewCallGraph.create_and_view_graph (ViewCallGraph.session hits) names
      = Ok g ∧
    (ViewCallGraph.edges g = ∅ ↔ ∀ frames, frames ∈ hits → length frames < 2) ∧
    size (ViewCallGraph.edges g)
      ≤ sum_list ((λ frames : list string, length frames - 1) <$> hits).
Proof.
  intros Hls. pose proof (ViewFacts.session_known hits) as Hk.
  eexists. split; [by apply create_and_view_graph_spec|].
  cbn [ViewCallGraph.edges]. split.
  - rewrite id_edges_empty.
    rewrite ViewFacts.session_stacks. unfold observed. split.
    + intros He frames Hf.
      destruct (decide (length frames < 2)) as [|Hlong]; [done|].
      destruct (frame_in_adjacency (tidy <$> frames)
                  (tidy (default "" (head frames)))) as (p & Hp & _).
      { rewrite length_fmap. lia. }
      { destruct frames; [simpl in *; lia|]. apply list_elem_of_here. }
      assert (p ∈ (∅ : gset (string * string))); [|set_solver].
      rewrite <- He, elem_of_list_to_set, list_elem_of_bind.
      exists (tidy <$> frames). split; [done|]. by apply list_elem_of_fmap_2.
    + intros Hshort. apply set_eq. intros p.
      rewrite elem_of_list_to_set, list_elem_of_bind. split; [|set_solver].
      intros (stack & Hp & (frames & -> & Hf)%list_elem_of_fmap).
      rewrite adjacencies_short in Hp; [by apply elem_of_nil in Hp|].
      rewrite length_fmap. by apply Hshort.
  - rewrite (id_edges_size _ _ Hls _ Hk), ViewFacts.session_stacks.
    unfold observed. etrans; [apply size_list_to_set_le|].
    clear. induction hits as [|frames hits IH]; [done|].
    cbn [fmap list_fmap mbind list_bind sum_list sum_list_with].
    rewrite length_app, adjacencies_length, length_fmap.
    change (list_fmap _ _ (list_fmap _ _ tidy) hits)
      with (fmap (M:=list) tidy <$> hits).
    change (list_bind _ _ adjacencies) with (mbind (M:=list) adjacencies) in *.
    cbn in *. lia.
Qed.

Lemma edges_empty_iff_short_stacks_witness :
  ∃ g,
    ViewCallGraph.create_and_view_graph
      (ViewCallGraph.session [["main"]; []; ["main"]]) ["main"] = Ok g ∧
    ViewCallGraph.edges g = ∅.
Proof.
  destruct (edges_empty_iff_short_stacks [["main"]; []; ["main"]] ["main"])
    as (g & Hg & Hempty & _).
  - listing.
  - exists g. split; [exact Hg|]. apply Hempty.
    intros frames Hin. repeat (apply elem_of_cons in Hin as [->|Hin]);
      [simpl; lia..|by apply elem_of_nil in Hin].
Defined.

(** X12.  Whatever is selected, the interactive graph has the nodes of the
    graph of [python/view_call_graph.py], every edge is red or black, and
    dropping the colours gives exactly the edges of that graph; with nothing
    selected every edge of that graph appears once, in black. *)
Theorem colours_do_not_change_the_edges
    (hits : list (list string * list (string * string)))
    (names : list string) (selected : option nat) :
  lists_set names (Interactive.function_names (Interactive.session hits)) →
  ∃ g gi,
    ViewCallGraph.create_and_view_graph
      (ViewCallGraph.session hits.*1) names = Ok g ∧
    Interactive.create_and_view_graph
      (Interactive.session hits) names selected = Ok gi ∧
    Interactive.nodes gi = ViewCallGraph.nodes g ∧
    set_map uncolor (Interactive.edges gi) = ViewCallGraph.edges g ∧
    (∀ a b color, (a, b, color) ∈ Interactive.edges gi →
                  color = "red" ∨ color = "black") ∧
    (selected = None →
     Interactive.edges gi = set_map (paint "black") (ViewCallGraph.edges g)).
Proof.
  intros Hls. pose proof (isession_known hits) as Hk.
  pose proof Hls as Hls'. rewrite session_names_agree in Hls'.
  pose proof (ViewFacts.session_known hits.*1) as Hk'.
  eexists _, _.
  split; [by apply create_and_view_graph_spec|].
  split; [by apply icreate_and_view_graph_spec|].
  cbn [Interactive.nodes Interactive.edges ViewCallGraph.nodes ViewCallGraph.edges].
  split; [done|]. rewrite session_stacks_agree.
  split; [apply uncolor_colored|]. split.
  - intros a b color. apply colored_colors.
  - intros ->. apply colored_none.
Qed.

Lemma colours_do_not_change_the_edges_witness :
  ∃ g gi,
    ViewCallGraph.create_and_view_graph
      (ViewCallGraph.session [["C"; "B"]; ["C"; "B"]]) ["C"; "B"] = Ok g ∧
    Interactive.create_and_view_graph Examples.twice ["C"; "B"] (Some 0)
      = Ok gi ∧
    set_map uncolor (Interactive.edges gi) = ViewCallGraph.edges g.
Proof.
  destruct (colours_do_not_change_the_edges
              [(["C"; "B"], []); (["C"; "B"], [])] ["C"; "B"] (Some 0))
    as (g & gi & Hg & Hgi & _ & Hun & _).
  - listing.
  - exists g, gi. split; [exact Hg|]. split; [exact Hgi|exact Hun].
Defined.

(** X13.  With stack [k] selected and [k <= 256], the red edges are exactly the
    (caller, callee) pairs of adjacent frames of stack [k], whatever its
    length, and the black edges are exactly the pairs of the other stacks; a
    selected stack of fewer than two frames highlights nothing.  With
    [k > 256] the [is] of line 77 holds for no stack: no edge is red and the
    black edges are the pairs of all stacks. *)
Theorem highlight_is_the_selected_stack
    (hits : list (list string * list (string * string)))
    (names : list string) (k : nat) (stack : list string) :
  lists_set names (Interactive.function_names (Interactive.session hits)) →
  (Interactive.stacks_and_locals (Interactive.session hits)).*1 !! k
    = Some stack →
  ∃ g,
    Interactive.create_and_view_graph (Interactive.session hits) names (Some k)
      = Ok g ∧
    (k ≤ 256 →
     (∀ a b, (a, b, "red") ∈ Interactive.edges g ↔
        ∃ i caller callee,
          stack !! (i + 1) = Some caller ∧ stack !! i = Some callee ∧
          a = str_int (position caller names) ∧
          b = str_int (position callee names)) ∧
     (∀ a b, (a, b, "black") ∈ Interactive.edges g ↔
        (a, b) ∈ id_edges names
                   (delete k (Interactive.stacks_and_locals
                                (Interactive.session hits)).*1)) ∧
     (length stack < 2 → ∀ a b, (a, b, "red") ∉ Interactive.edges g)) ∧
    (256 < k →
     (∀ a b, (a, b, "red") ∉ Interactive.edges g) ∧
     (∀ a b, (a, b, "black") ∈ Interactive.edges g ↔
        (a, b) ∈ id_edges names
                   (Interactive.stacks_and_locals
                      (Interactive.session hits)).*1)).
Proof.
  intros Hls Hstack. pose proof (isession_known hits) as Hk.
  eexists. split; [by apply icreate_and_view_graph_spec|].
  cbn [Interactive.edges]. split.
  - intros Hsmall.
    rewrite (colored_selected names k 0 _ stack)
      by (done || lia || by rewrite Nat.sub_0_r).
    rewrite Nat.sub_0_r.
    assert (Hred : ∀ a b,
      (a, b, "red") ∈ set_map (D:=gset (string * string * string))
                        (paint "red") (id_edges names [stack])
                      ∪ set_map (paint "black")
                          (id_edges names
                             (delete k (Interactive.stacks_and_locals
                                          (Interactive.session hits)).*1)) ↔
      (a, b) ∈ id_edges names [stack]).
    { intros a b. rewrite elem_of_union, !elem_of_paint. split.
      - by intros [[_ ?]|[[=] _]].
      - intros ?. by left. }
    split; [|split].
    + intros a b. by rewrite Hred, elem_of_id_edges_one.
    + intros a b. rewrite elem_of_union, !elem_of_paint. split.
      * by intros [[[=] _]|[_ ?]].
      * intros ?. by right.
    + intros Hshort a b. rewrite Hred.
      unfold id_edges, observed. cbn [mbind list_bind].
      rewrite adjacencies_short by done. set_solver.
  - intros Hlarge. rewrite colored_large by done. split.
    + intros a b [[=] _]%elem_of_paint.
    + intros a b. rewrite elem_of_paint. naive_solver.
Qed.

Lemma highlight_is_the_selected_stack_witness :
  ∃ g,
    Interactive.create_and_view_graph Examples.three ["A"; "B"; "C"; "D"]
      (Some 1) = Ok g ∧
    ∀ a b, (a, b, "black") ∈ Interactive.edges g ↔
           (a, b) ∈ id_edges ["A"; "B"; "C"; "D"]
                      [["C"; "B"; "A"]; ["C"; "B"; "A"]].
Proof.
  destruct (highlight_is_the_selected_stack
              [(["C"; "B"; "A"], []); (["C"; "D"; "A"], []);
               (["C"; "B"; "A"], [])]
              ["A"; "B"; "C"; "D"] 1 ["C"; "D"; "A"])
    as (g & Hg & Hsmall & _).
  - listing.
  - vm_compute. reflexivity.
  - exists g. split; [exact Hg|].
    destruct Hsmall as (_ & Hblack & _); [lia | exact Hblack].
Defined.

(** X14.  [create_and_show_stack_table] returns exactly when at least one
    stack was captured and every captured stack has twelve frames or more;
    otherwise it raises [IndexError] (from [stacks_and_locals[0]] or from
    [stack[-12]]). *)
Theorem stack_table_error_cases (self : Interactive.breakpoint) :
  (raises (create_and_show_stack_table self) = false ↔
   Interactive.stacks_and_locals self ≠ [] ∧
   ∀ stack locals, (stack, locals) ∈ Interactive.stacks_and_locals self →
                   12 ≤ length stack) ∧
  (raises (create_and_show_stack_table self) = true →
   create_and_show_stack_table self = Raise IndexError).
Proof.
  unfold create_and_show_stack_table. rewrite <- all_deep_iff.
  destruct (Interactive.stacks_and_locals self) as [|[stack0 locals0] sl] eqn:Hsl.
  - simpl. split; [|done]. split; [done|]. by intros [? _].
  - cbn [lookup list_lookup].
    destruct (decide (Forall deep ((stack0, locals0) :: sl))) as [Hall|Hnot].
    + destruct (proj1 (add_rows_cases 0 _) Hall) as (rs & -> & _).
      cbn [bind raises]. split; [|done]. split; [done|]. done.
    + rewrite (proj2 (add_rows_cases 0 _) Hnot). cbn [bind raises].
      split; [|done]. split; [done|]. by intros [_ ?].
Qed.

(** X15.  When [create_and_show_stack_table] returns, the columns are
    ["Stack Index"], the names of the locals of the first stack in order, and
    ["test name"]; there is one row per captured stack, in capture order;
    row [k] is labelled [str(k)], carries [k] as [user_data], shows the
    values of the locals of stack [k], and its test name is the twelfth
    frame of stack [k] counted from the outermost. *)
Theorem stack_table_contents (self : Interactive.breakpoint) (t : table) :
  create_and_show_stack_table self = Ok t →
  (∃ stack0 locals0,
     Interactive.stacks_and_locals self !! 0 = Some (stack0, locals0) ∧
     columns t
       = "Stack Index" :: (Interactive.name <$> locals0) ++ ["test name"]) ∧
  length (rows t) = length (Interactive.stacks_and_locals self) ∧
  ∀ k stack locals,
    Interactive.stacks_and_locals self !! k = Some (stack, locals) →
    ∃ test,
      stack !! (length stack - 12) = Some test ∧
      rows t !! k = Some {| label := str_int k; user_data := k;
                            cells := Interactive.value <$> locals;
                            test_name := test |}.
Proof.
  unfold create_and_show_stack_table.
  destruct (Interactive.stacks_and_locals self !! 0) as [[stack0 locals0]|] eqn:H0;
    [|done].
  destruct (decide (Forall deep (Interactive.stacks_and_locals self)))
    as [Hall|Hnot].
  - destruct (proj1 (add_rows_cases 0 _) Hall) as (rs & -> & Hlen & Hrows).
    cbn [bind]. intros [= <-]. cbn [columns rows].
    split; [by exists stack0, locals0|]. split; [done|]. exact Hrows.
  - by rewrite (proj2 (add_rows_cases 0 _) Hnot).
Qed.

Lemma stack_table_contents_witness :
  ∃ t, create_and_show_stack_table (Interactive.session [Examples2.deep_hit])
         = Ok t ∧
       columns t = ["Stack Index"; "n"; "ok"; "test name"] ∧
       rows t !! 0 = Some {| label := "0"; user_data := 0;
                             cells := ["3"; "true"];
                             test_name := "TestBody" |}.
Proof.
  eexists. split; [vm_compute; reflexivity|].
  destruct (stack_table_contents (Interactive.session [Examples2.deep_hit]) _
              eq_refl) as ((s0 & l0 & H0 & Hcols) & _ & Hrows).
  split.
  - vm_compute in H0. injection H0 as <- <-. exact Hcols.
  - destruct (Hrows 0 _ _ eq_refl) as (test & Htest & Hrow).
    vm_compute in Htest. injection Htest as <-. exact Hrow.
Defined.

(** X16.  At exit, after any session, [on_exit] draws the graph with every
    edge black and then builds the table: it returns when there was at least
    one hit and every hit is twelve frames deep or more, with one row per hit
    whose test name is the tidied twelfth frame from the outermost; with no
    hit at all, or with a hit of fewer than twelve frames, it raises
    [IndexError]. *)
Theorem on_exit_cases
    (hits : list (list string * list (string * string)))
    (names : list string) :
  lists_set names (Interactive.function_names (Interactive.session hits)) →
  (hits ≠ [] ∧ (∀ hit, hit ∈ hits → 12 ≤ length hit.1) →
   ∃ g t,
     on_exit (Interactive.session hits) names = Ok (g, t) ∧
     (∀ a b color, (a, b, color) ∈ Interactive.edges g → color = "black") ∧
     length (rows t) = length hits ∧
     ∀ k hit, hits !! k = Some hit →
       ∃ r raw, rows t !! k = Some r ∧ user_data r = k ∧
         label r = str_int k ∧ cells r = hit.2.*2 ∧
         hit.1 !! (length hit.1 - 12) = Some raw ∧ test_name r = tidy raw) ∧
  (hits = [] ∨ (∃ hit, hit ∈ hits ∧ length hit.1 < 12) →
   on_exit (Interactive.session hits) names = Raise IndexError).
Proof.
  intros Hls. pose proof (isession_known hits) as Hk.
  pose proof (isession_recorded hits) as Hsl.
  unfold on_exit. rewrite icreate_and_view_graph_spec by done. cbn [bind].
  unfold create_and_show_stack_table. rewrite Hsl, list_lookup_fmap.
  split.
  - intros [Hne Hdeep]. destruct hits as [|hit0 rest]; [done|].
    remember (recorded <$> hit0 :: rest) as sl eqn:Hrec.
    cbn [lookup list_lookup fmap option_fmap option_map recorded]. subst sl.
    destruct (proj1 (add_rows_cases 0 (recorded <$> hit0 :: rest)))
      as (rs & -> & Hlen & Hrows); [by apply deep_recorded|].
    cbn [bind]. eexists _, _. split; [done|]. cbn [Interactive.edges rows].
    split.
    { rewrite colored_none. by intros a b color [-> _]%elem_of_paint. }
    split; [by rewrite Hlen, length_fmap|].
    intros k hit Hhit.
    destruct (Hrows k (tidy <$> hit.1)
                ((λ sym, {| Interactive.name := sym.1;
                            Interactive.value := sym.2 |}) <$> hit.2))
      as (test & Htest & Hrow).
    { by rewrite list_lookup_fmap, Hhit. }
    rewrite length_fmap, list_lookup_fmap in Htest.
    destruct (hit.1 !! (length hit.1 - 12)) as [raw|] eqn:Hraw; [|done].
    injection Htest as <-.
    eexists _, raw. split; [exact Hrow|]. cbn.
    repeat split; try done.
    rewrite <- list_fmap_compose. done.
  - intros Hbad. destruct hits as [|hit0 rest]; [done|].
    remember (recorded <$> hit0 :: rest) as sl eqn:Hrec.
    cbn [lookup list_lookup fmap option_fmap option_map recorded]. subst sl.
    rewrite (proj2 (add_rows_cases 0 (recorded <$> hit0 :: rest))); [done|].
    rewrite deep_recorded. intros Hdeep.
    destruct Hbad as [[=]|(hit & Hin & Hshort)].
    specialize (Hdeep hit Hin). lia.
Qed.

Lemma on_exit_cases_witness :
  on_exit (Interactive.session []) [] = Raise IndexError.
Proof.
  apply (on_exit_cases [] []).
  - listing.
  - by left.
Defined.

(** X17.  [print_stack.py] prints one line per frame, innermost first, and
    halts; the lines are exactly the stack [python/view_call_graph.py]
    records for the same hit, each is then a known function name, and none
    contains a parenthesis. *)
Theorem print_stack_prints_the_recorded_stack
    (self : ViewCallGraph.breakpoint) (frames : list string) :
  (PrintStack.stop frames).1 = tidy <$> frames ∧
  (PrintStack.stop frames).2 = true ∧
  ViewCallGraph.stacks (ViewCallGraph.stop self frames)
    = ViewCallGraph.stacks self ++ [(PrintStack.stop frames).1] ∧
  (∀ line, line ∈ (PrintStack.stop frames).1 →
     line ∈ ViewCallGraph.function_names (ViewCallGraph.stop self frames) ∧
     paren_free line = true).
Proof.
  unfold PrintStack.stop. cbn [fst snd]. rewrite walk_printed. cbn [app].
  split; [done|]. split; [done|]. split; [apply ViewFacts.stop_stacks|].
  intros line Hline. split.
  - rewrite ViewFacts.stop_function_names. set_solver.
  - apply list_elem_of_fmap in Hline as (raw & -> & _). apply tidy_paren_free.
Qed.
